(** * Indian Poker competition engine: a shallow embedding and its properties

    The development follows [src/IndianPokerCompetition.py]:
    the hand scorer [calculateScore], the betting round [playRound] with
    its fold and showdown resolutions, the game loop [playGame] and the
    seeded series of games [playTournament].

    Python integers are unbounded, so every integer is a [Z].  The two
    agents are opaque objects with a [play] method that may keep state;
    they are modelled as two functions over a shared store [W].  The
    pseudo-random generator of the standard library is a parameter. *)

From Stdlib Require Import ZArith List Bool Lia QArith Permutation Sorted.
Import ListNotations.

Local Open Scope Z_scope.

(** ** Value objects *)

(** [class RoundResult(Enum)] *)
Inductive RoundResult : Type :=
| A_WIN
| DRAW
| B_WIN.

(** [class VisibleState]: the eight fields, in constructor order. *)
Record VisibleState : Type := mkVisibleState {
  common_card_1 : Z;
  common_card_2 : Z;
  other_players_card : Z;
  own_chips : Z;
  others_chips : Z;
  own_current_bet : Z;
  others_current_bet : Z;
  other_played : bool
}.

(** ** The scorer *)

(** [sorted] on a list of integers, as an insertion sort; the lemmas
    [sorted_Permutation] and [sorted_ascending] below say that it
    is the ascending rearrangement of its argument. *)
Fixpoint insert (x : Z) (l : list Z) : list Z :=
  match l with
  | [] => [x]
  | h :: t => if x <=? h then x :: h :: t else h :: insert x t
  end.

Fixpoint sorted (l : list Z) : list Z :=
  match l with
  | [] => []
  | h :: t => insert h (sorted t)
  end.

(** Equality of two integer tuples, [tuple(straight) == (1, 9, 10)]. *)
Fixpoint tuple_eqb (l1 l2 : list Z) : bool :=
  match l1, l2 with
  | [], [] => true
  | x :: t1, y :: t2 => (x =? y) && tuple_eqb t1 t2
  | _, _ => false
  end.

(** [straight[i]]; the list always has three elements. *)
Definition item (l : list Z) (i : nat) : Z := nth i l 0.

(** [IPGame.calculateScore] *)
Definition calculateScore (card common1 common2 : Z) : Z :=
  let straight := sorted [card; common1; common2] in
  if tuple_eqb straight [1; 9; 10] then 21
  else if tuple_eqb straight [1; 2; 10] then 22
  else if (item straight 1 =? (item straight 0) mod 10 + 1)
          && (item straight 2 =? (item straight 1) mod 10 + 1)
       then 20 + item straight 2
  else if (card =? common1) && (common1 =? common2) then 20 + card
  else if (card =? common1) || (card =? common2) then 10 + card
  else card.

(** [IPGame.showdown] *)
Definition showdown (a_card b_card common1 common2 : Z) : RoundResult :=
  let score_a := calculateScore a_card common1 common2 in
  let score_b := calculateScore b_card common1 common2 in
  if score_a =? score_b then DRAW
  else if score_a >? score_b then A_WIN
  else B_WIN.

(** ** Round and game state *)

(** The four cards drawn at the start of a round:
    [a_card, b_card, common1, common2 = self.rng.sample(self.deck, 4)]. *)
Record Deal : Type := mkDeal {
  a_card : Z;
  b_card : Z;
  common1 : Z;
  common2 : Z
}.

(** The local variables of [playRound] that the betting loop updates. *)
Record RoundState : Type := mkRoundState {
  a_bet : Z;
  b_bet : Z;
  current_bet : Z;
  a_can_raise : bool;
  b_can_raise : bool;
  a_turn : bool
}.

(** The fields of an [IPGame] object.  The two agent handles are the
    parameters [play_a] and [play_b] of the engine below. *)
Record IPGame (Rng : Type) : Type := mkIPGame {
  seed : Z;
  blind : Z;
  a_chips : Z;
  b_chips : Z;
  max_length : Z;
  deck : list Z;
  a_first : bool;
  rng : Rng
}.

Arguments mkIPGame {Rng}.
Arguments seed {Rng}.
Arguments blind {Rng}.
Arguments a_chips {Rng}.
Arguments b_chips {Rng}.
Arguments max_length {Rng}.
Arguments deck {Rng}.
Arguments a_first {Rng}.
Arguments rng {Rng}.

(** The fields of an [IPTournament] object other than the agent handles. *)
Record IPTournament : Type := mkIPTournament {
  num_games : Z;
  tournament_seed : Z;
  a_points : Q;
  b_points : Q
}.

(** How a round left [playRound]: through the [return] of the fold
    branch or through the reveal after the loop. *)
Inductive RoundExit : Type :=
| Fold
| Showdown.

(** A record of one finished round, kept beside the new game state:
    the way it ended, the cards, and the loop variables at that moment
    (for a fold: when the folding proposal was made, before any penalty
    is added to [current_bet]; [a_turn] then tells who folded). *)
Record RoundEnd : Type := mkRoundEnd {
  exit : RoundExit;
  at_state : RoundState;
  cards : Deal
}.

(** [range(lo, hi)] *)
Definition range (lo hi : Z) : list Z :=
  map (fun k => lo + Z.of_nat k) (seq 0 (Z.to_nat (hi - lo))).

(** [[i for i in range(1, 11) for _ in range(4)]] *)
Definition full_deck : list Z :=
  flat_map (fun i => map (fun _ => i) (range 0 4)) (range 1 11).

Definition score_a (d : Deal) : Z := calculateScore (a_card d) (common1 d) (common2 d).
Definition score_b (d : Deal) : Z := calculateScore (b_card d) (common1 d) (common2 d).

(** The penalty rule in the words of the specification: 10 when the
    folder's score beats the opponent's and is above 20, 5 when it beats
    it and lies in 11..20, and 0 otherwise. *)
Definition penalty_rule (s_f s_o : Z) : Z :=
  if (s_f >? s_o) && (s_f >? 20) then 10
  else if (s_f >? s_o) && (10 <? s_f) && (s_f <=? 20) then 5
  else 0.

(** Scores of the folder and of the other side, and the penalty the
    rule above assigns to a finished round (none at a showdown). *)
Definition folder_score (e : RoundEnd) : Z :=
  if a_turn (at_state e) then score_a (cards e) else score_b (cards e).

Definition opponent_score (e : RoundEnd) : Z :=
  if a_turn (at_state e) then score_b (cards e) else score_a (cards e).

Definition round_penalty (e : RoundEnd) : Z :=
  match exit e with
  | Fold => penalty_rule (folder_score e) (opponent_score e)
  | Showdown => 0
  end.

Section Engine.

(** [W] is the store the two agent objects live in, [Rng] the state
    of a [random.Random] instance. *)
Context {W Rng : Type}.

(** [player_a.play] and [player_b.play]: the bet, and the store after
    the call. *)
Variable play_a : VisibleState -> W -> Z * W.
Variable play_b : VisibleState -> W -> Z * W.

(** [rng.sample(deck, 4)], unpacked into the four cards, and
    [random.Random(seed)]. *)
Variable sample : Rng -> list Z -> Deal * Rng.
Variable Random : Z -> Rng.

(** [IPGame.__init__] *)
Definition IPGame_init (seed : Z) (a_first : bool)
    (starting_chips blind max_length : Z) : IPGame Rng :=
  {| seed := seed;
     blind := blind;
     a_chips := starting_chips;
     b_chips := starting_chips;
     max_length := max_length;
     deck := full_deck;
     a_first := a_first;
     rng := Random seed |}.

(** Assignment to [self.a_chips], [self.b_chips] and [self.a_first]. *)
Definition settle (g : IPGame Rng) (a b : Z) (first : bool) : IPGame Rng :=
  {| seed := seed g;
     blind := blind g;
     a_chips := a;
     b_chips := b;
     max_length := max_length g;
     deck := deck g;
     a_first := first;
     rng := rng g |}.

Definition with_rng (g : IPGame Rng) (r : Rng) : IPGame Rng :=
  {| seed := seed g;
     blind := blind g;
     a_chips := a_chips g;
     b_chips := b_chips g;
     max_length := max_length g;
     deck := deck g;
     a_first := a_first g;
     rng := r |}.

(** The snapshot built at the top of the loop body (lines 91-104). *)
Definition visible_state (g : IPGame Rng) (d : Deal) (rs : RoundState)
    : VisibleState :=
  if a_turn rs then
    mkVisibleState (common1 d) (common2 d) (b_card d)
                   (a_chips g) (b_chips g) (a_bet rs) (b_bet rs)
                   (negb (b_can_raise rs))
  else
    mkVisibleState (common1 d) (common2 d) (a_card d)
                   (b_chips g) (a_chips g)
                   (b_bet rs) (a_bet rs)
                   (negb (a_can_raise rs)).

Definition current_player (rs : RoundState) : VisibleState -> W -> Z * W :=
  if a_turn rs then play_a else play_b.

(** The all-in normalisation (lines 109-111). *)
Definition all_in (g : IPGame Rng) (proposed_bet : Z) : Z :=
  if proposed_bet >=? Z.min (a_chips g) (b_chips g)
  then Z.min (a_chips g) (b_chips g)
  else proposed_bet.

(** The fold branch (lines 113-138). *)
Definition fold (g : IPGame Rng) (d : Deal) (rs : RoundState) : IPGame Rng :=
  let score_a := calculateScore (a_card d) (common1 d) (common2 d) in
  let score_b := calculateScore (b_card d) (common1 d) (common2 d) in
  if a_turn rs then
    let current_bet :=
      if score_a >? score_b then
        if score_a >? 20 then current_bet rs + 10
        else if score_a >? 10 then current_bet rs + 5
        else current_bet rs
      else current_bet rs in
    settle g (a_chips g - current_bet) (b_chips g + current_bet) false
  else
    let current_bet :=
      if score_b >? score_a then
        if score_b >? 20 then current_bet rs + 10
        else if score_b >? 10 then current_bet rs + 5
        else current_bet rs
      else current_bet rs in
    settle g (a_chips g + current_bet) (b_chips g - current_bet) true.

(** The raise-or-call branch (lines 140-152). *)
Definition raise_or_call (rs : RoundState) (proposed_bet : Z) : RoundState :=
  let rs1 :=
    if a_turn rs then
      {| a_bet := proposed_bet;
         b_bet := b_bet rs;
         current_bet := current_bet rs;
         a_can_raise := false;
         b_can_raise := proposed_bet >? current_bet rs;
         a_turn := false |}
    else
      {| a_bet := a_bet rs;
         b_bet := proposed_bet;
         current_bet := current_bet rs;
         a_can_raise := proposed_bet >? current_bet rs;
         b_can_raise := false;
         a_turn := true |} in
  {| a_bet := a_bet rs1;
     b_bet := b_bet rs1;
     current_bet := Z.max (current_bet rs1) (Z.max (a_bet rs1) (b_bet rs1));
     a_can_raise := a_can_raise rs1;
     b_can_raise := b_can_raise rs1;
     a_turn := a_turn rs1 |}.

(** One pass through the body of the betting loop. *)
Inductive TurnResult : Type :=
| Folded (g' : IPGame Rng) (w' : W)
| Played (rs' : RoundState) (w' : W).

(** [proposed_bet = current_player.play(visible_state)] (line 107). *)
Definition decision (g : IPGame Rng) (d : Deal) (rs : RoundState) (w : W)
    : Z * W :=
  current_player rs (visible_state g d rs) w.

Definition turn (g : IPGame Rng) (d : Deal) (rs : RoundState) (w : W)
    : TurnResult :=
  let (bet, w') := decision g d rs w in
  let proposed_bet := all_in g bet in
  if proposed_bet <? current_bet rs
  then Folded (fold g d rs) w'
  else Played (raise_or_call rs proposed_bet) w'.

(** The reveal after the loop (lines 154-165). *)
Definition reveal (g : IPGame Rng) (d : Deal) (rs : RoundState) : IPGame Rng :=
  match showdown (a_card d) (b_card d) (common1 d) (common2 d) with
  | A_WIN => settle g (a_chips g + a_bet rs) (b_chips g - a_bet rs) true
  | _ => settle g (a_chips g - a_bet rs) (b_chips g + a_bet rs) false
  end.

(** [while a_can_raise or b_can_raise], at most [fuel] passes. *)
Fixpoint betting (fuel : nat) (g : IPGame Rng) (d : Deal) (rs : RoundState)
    (w : W) : option (IPGame Rng * W * RoundEnd) :=
  if a_can_raise rs || b_can_raise rs then
    match fuel with
    | O => None
    | S fuel' =>
        match turn g d rs w with
        | Folded g' w' => Some (g', w', mkRoundEnd Fold rs d)
        | Played rs' w' => betting fuel' g d rs' w'
        end
    end
  else Some (reveal g d rs, w, mkRoundEnd Showdown rs d).

(** The loop variables when the loop is entered (lines 84-88). *)
Definition opening (g : IPGame Rng) : RoundState :=
  {| a_bet := blind g;
     b_bet := blind g;
     current_bet := blind g;
     a_can_raise := true;
     b_can_raise := true;
     a_turn := a_first g |}.

(** Passes that are enough for the betting loop of a round of [g];
    see [betting_enough]. *)
Definition round_fuel (g : IPGame Rng) : nat :=
  S (Z.to_nat (Z.min (a_chips g) (b_chips g) - blind g)).

(** [IPGame.playRound] *)
Definition playRound (g : IPGame Rng) (w : W)
    : option (IPGame Rng * W * RoundEnd) :=
  let (d, r) := sample (rng g) (deck g) in
  betting (round_fuel g) (with_rng g r) d (opening g) w.

(** The loop of [playGame] (lines 199-202), at most [fuel] rounds. *)
Fixpoint rounds (fuel : nat) (g : IPGame Rng) (w : W) (length : Z)
    : option (IPGame Rng * W * Z) :=
  if (a_chips g >? 0) && (b_chips g >? 0) && (length <? max_length g) then
    match fuel with
    | O => None
    | S fuel' =>
        match playRound g w with
        | None => None
        | Some (g', w', _) => rounds fuel' g' w' (length + 1)
        end
    end
  else Some (g, w, length).

(** The value returned after the loop (lines 204-210). *)
Definition points (g : IPGame Rng) (length : Z) : Q * Q :=
  if length >=? max_length g then (1 # 2, 1 # 2)%Q
  else if a_chips g >? 0 then (1, 0)%Q
  else (0, 1)%Q.

(** The game object, the store and the round counter when the loop
    of [playGame] is left. *)
Definition playGame_run (g : IPGame Rng) (w : W)
    : option (IPGame Rng * W * Z) :=
  rounds (Z.to_nat (max_length g)) g w 0.

(** [IPGame.playGame] *)
Definition playGame (g : IPGame Rng) (w : W) : option (Q * Q * W) :=
  match playGame_run g w with
  | None => None
  | Some (g', w', length) => Some (points g' length, w')
  end.

(** The game built in pass [i] of the tournament loop, with the
    defaults of [IPGame.__init__]. *)
Definition new_game (i : Z) : IPGame Rng :=
  IPGame_init i (i mod 2 =? 0) 20 1 100000.

(** The games of the tournament loop, in the order of
    [range(self.seed, self.seed + self.num_games)].  Building a game
    only seeds its generator, so the list can be laid out before the
    first game is played. *)
Definition tournament_games (t : IPTournament) : list (IPGame Rng) :=
  map new_game (range (tournament_seed t) (tournament_seed t + num_games t)).

Fixpoint play_games (games : list (IPGame Rng)) (t : IPTournament) (w : W)
    : option (IPTournament * W) :=
  match games with
  | [] => Some (t, w)
  | game :: rest =>
      match playGame game w with
      | None => None
      | Some (a_add_points, b_add_points, w') =>
          play_games rest
            {| num_games := num_games t;
               tournament_seed := tournament_seed t;
               a_points := Qred (a_points t + a_add_points);
               b_points := Qred (b_points t + b_add_points) |} w'
      end
  end.

(** [IPTournament.playTournament] *)
Definition playTournament (t : IPTournament) (w : W)
    : option (IPTournament * W) :=
  play_games (tournament_games t) t w.

End Engine.

(** Passes still possible from a loop state: none once both flags are
    down, otherwise one more than the room left under the shorter
    stack. *)
Definition passes_left {Rng : Type} (g : IPGame Rng) (rs : RoundState) : nat :=
  if a_can_raise rs || b_can_raise rs
  then S (Z.to_nat (Z.min (a_chips g) (b_chips g) - current_bet rs))
  else O.

(** What holds of the loop variables every time the loop condition is
    tested: no bet is above the current bet, the side that is not to
    move has matched it, both have once the betting is closed, and the
    current bet lies between the blind and the larger of the blind and
    the shorter stack. *)
Definition bets_matched {Rng : Type} (g : IPGame Rng) (rs : RoundState) : Prop :=
  a_bet rs <= current_bet rs
  /\ b_bet rs <= current_bet rs
  /\ (if a_turn rs then b_bet rs else a_bet rs) = current_bet rs
  /\ (a_can_raise rs || b_can_raise rs = false ->
      a_bet rs = current_bet rs /\ b_bet rs = current_bet rs)
  /\ blind g <= current_bet rs
  /\ current_bet rs <= Z.max (blind g) (Z.min (a_chips g) (b_chips g)).

(** The condition of the [while] of [playGame]. *)
Definition keeps_playing {Rng : Type} (g : IPGame Rng) (length : Z) : bool :=
  (a_chips g >? 0) && (b_chips g >? 0) && (length <? max_length g).

(** The deal [d] with the card of the side to move replaced by [c]. *)
Definition with_own_card (rs : RoundState) (d : Deal) (c : Z) : Deal :=
  if a_turn rs
  then {| a_card := c; b_card := b_card d;
          common1 := common1 d; common2 := common2 d |}
  else {| a_card := a_card d; b_card := c;
          common1 := common1 d; common2 := common2 d |}.

(** ** Concrete agents, deals and games

    Stateless agents that always propose the same amount, and a
    generator that hands out a prepared sequence of deals; they fix the
    parameters of the engine in the examples further down. *)
Module Demo.

(** An agent whose [play] returns [bet] whatever it is shown. *)
Definition always (bet : Z) (vs : VisibleState) (w : unit) : Z * unit :=
  (bet, w).

(** A generator whose state is the list of deals still to come; once
    the list is used up it deals the first four cards of the deck. *)
Definition sample (r : list Deal) (deck : list Z) : Deal * list Deal :=
  (hd (mkDeal (item deck 0) (item deck 1) (item deck 2) (item deck 3)) r,
   tl r).

Definition Random (seed : Z) : list Deal := [].

(** A holds the run 1-2-3 (score 23), B holds a lone 7. *)
Definition run_vs_seven : Deal := mkDeal 3 7 1 2.

(** Both sides hold a 5 beside 1 and 2: equal scores. *)
Definition fives : Deal := mkDeal 5 5 1 2.

Definition game (a_first : bool) (starting_chips max_length : Z)
    (deals : list Deal) : IPGame (list Deal) :=
  {| seed := 1;
     blind := 1;
     a_chips := starting_chips;
     b_chips := starting_chips;
     max_length := max_length;
     deck := full_deck;
     a_first := a_first;
     rng := deals |}.

(** The tournament object built by [IPTournament(a, b)]. *)
Definition default_tournament : IPTournament :=
  {| num_games := 100; tournament_seed := 1;
     a_points := 0; b_points := 0 |}.

End Demo.

(** ** The tournament object *)

(** [IPTournament.__init__]: the point totals start at 0.0. *)
Definition IPTournament_init (num_games seed : Z) : IPTournament :=
  {| num_games := num_games;
     tournament_seed := seed;
     a_points := 0;
     b_points := 0 |}.

Section TournamentReset.

Context {W : Type}.

(** [player_a.reset] and [player_b.reset], acting on the store. *)
Variable reset_a : W -> W.
Variable reset_b : W -> W.

(** [IPTournament.reset] *)
Definition reset (t : IPTournament) (w : W) : IPTournament * W :=
  let w := reset_a w in
  let w := reset_b w in
  ({| num_games := num_games t;
      tournament_seed := tournament_seed t;
      a_points := 0;
      b_points := 0 |}, w).

End TournamentReset.

(** A round result read from the other seat. *)
Definition mirror (r : RoundResult) : RoundResult :=
  match r with
  | A_WIN => B_WIN
  | DRAW => DRAW
  | B_WIN => A_WIN
  end.

(** ** Decision requests of a round *)

(** What a snapshot handed to the side [a_turn rs] at loop state [rs]
    is said to hold: the two community cards, the other side's card,
    the mover's stack and bet, the other side's stack and bet, and
    the negation of the other side's can-raise flag. *)
Definition snapshot_contents {Rng : Type} (g : IPGame Rng) (d : Deal)
    (rs : RoundState) (vs : VisibleState) : Prop :=
  common_card_1 vs = common1 d
  /\ common_card_2 vs = common2 d
  /\ other_players_card vs = (if a_turn rs then b_card d else a_card d)
  /\ own_chips vs = (if a_turn rs then a_chips g else b_chips g)
  /\ others_chips vs = (if a_turn rs then b_chips g else a_chips g)
  /\ own_current_bet vs = (if a_turn rs then a_bet rs else b_bet rs)
  /\ others_current_bet vs = (if a_turn rs then b_bet rs else a_bet rs)
  /\ other_played vs
     = negb (if a_turn rs then b_can_raise rs else a_can_raise rs).

(** An agent that behaves as [play] and also appends, to a log kept
    beside its store, its seat ([true] for A) and every snapshot its
    [play] method is called with. *)
Definition logged {W : Type} (seat : bool)
    (play : VisibleState -> W -> Z * W) (vs : VisibleState)
    (st : W * list (bool * VisibleState))
    : Z * (W * list (bool * VisibleState)) :=
  let (bet, w') := play vs (fst st) in
  (bet, (w', snd st ++ [(seat, vs)])).

(** An agent that proposes the card it is shown. *)
Definition bets_the_card_it_sees (vs : VisibleState) (w : unit) : Z * unit :=
  (other_players_card vs, w).

Section Requests.

Context {W Rng : Type}.
Variable play_a : VisibleState -> W -> Z * W.
Variable play_b : VisibleState -> W -> Z * W.

(** The loop states at which the betting loop calls [play], in order:
    the state of each pass that starts with a can-raise flag up. *)
Fixpoint requests (fuel : nat) (g : IPGame Rng) (d : Deal) (rs : RoundState)
    (w : W) : list RoundState :=
  if a_can_raise rs || b_can_raise rs then
    match fuel with
    | O => []
    | S fuel' =>
        rs :: match turn play_a play_b g d rs w with
              | Folded _ _ => []
              | Played rs' w' => requests fuel' g d rs' w'
              end
    end
  else [].

End Requests.

(** A hand of ranks in 1..10 that is a straight: a rearrangement of
    1, 9, 10, of 1, 2, 10, or of a plain run. *)
Definition straight_hand (c x y : Z) : Prop :=
  Permutation [c; x; y] [1; 9; 10]
  \/ Permutation [c; x; y] [1; 2; 10]
  \/ exists n, 1 <= n <= 8 /\ Permutation [c; x; y] [n; n + 1; n + 2].

(** ** Scorer facts *)

Lemma insert_Permutation (x : Z) (l : list Z) :
  Permutation (x :: l) (insert x l).
Proof.
  induction l as [|h t IH]; simpl; [reflexivity|].
  destruct (x <=? h); [reflexivity|].
  rewrite perm_swap. now apply perm_skip.
Qed.

Lemma sorted_Permutation (l : list Z) : Permutation l (sorted l).
Proof.
  induction l as [|h t IH]; simpl; [constructor|].
  rewrite <- insert_Permutation. now apply perm_skip.
Qed.

Lemma insert_ascending (x : Z) (l : list Z) :
  Sorted Z.le l -> Sorted Z.le (insert x l).
Proof.
  induction 1 as [|h t Ht IH Hh]; simpl.
  - repeat constructor.
  - destruct (Z.leb_spec x h).
    + repeat constructor; assumption.
    + constructor; [assumption|].
      destruct Hh as [|k t' Hk]; simpl.
      * constructor. lia.
      * destruct (Z.leb_spec x k); constructor; lia.
Qed.

Lemma sorted_ascending (l : list Z) : Sorted Z.le (sorted l).
Proof.
  induction l; simpl; [constructor | now apply insert_ascending].
Qed.

Lemma insert_insert (a b : Z) (l : list Z) :
  insert a (insert b l) = insert b (insert a l).
Proof.
  induction l as [|h t IH]; simpl.
  - destruct (Z.leb_spec a b), (Z.leb_spec b a); try reflexivity; try lia.
    assert (a = b) by lia. now subst.
  - destruct (Z.leb_spec a h) as [Hah|Hah], (Z.leb_spec b h) as [Hbh|Hbh];
      simpl;
      destruct (Z.leb_spec a b), (Z.leb_spec b a);
      destruct (Z.leb_spec a h), (Z.leb_spec b h);
      try lia; try reflexivity; try (now rewrite IH).
    assert (a = b) by lia. now subst.
Qed.

Lemma sorted_perm_eq (l1 l2 : list Z) :
  Permutation l1 l2 -> sorted l1 = sorted l2.
Proof.
  induction 1; simpl.
  - reflexivity.
  - now f_equal.
  - apply insert_insert.
  - congruence.
Qed.

Lemma tuple_eqb_eq (l1 l2 : list Z) : tuple_eqb l1 l2 = true <-> l1 = l2.
Proof.
  revert l2; induction l1 as [|x t IH]; intros [|y t2]; simpl;
    try (split; [discriminate|discriminate]); [tauto|].
  rewrite andb_true_iff, Z.eqb_eq, IH.
  split; [intros [-> ->]; reflexivity | intros [= -> ->]; auto].
Qed.

Lemma sorted_run (n : Z) : sorted [n; n + 1; n + 2] = [n; n + 1; n + 2].
Proof.
  simpl.
  destruct (Z.leb_spec (n + 1) (n + 2)); [|lia].
  simpl. destruct (Z.leb_spec n (n + 1)); [reflexivity|lia].
Qed.

(** [C5] For ranks [c], [x], [y] in 1..10 the score does not change when
    the two community cards are exchanged; a hand that is a
    rearrangement of 1, 9, 10 scores 21, a rearrangement of 1, 2, 10
    scores 22, and a rearrangement of a plain run [n], [n+1], [n+2] with
    [n] in 1..8 scores [22 + n]. *)
Theorem calculateScore_symmetric_straights (c x y : Z) :
  1 <= c <= 10 -> 1 <= x <= 10 -> 1 <= y <= 10 ->
  calculateScore c x y = calculateScore c y x
  /\ (Permutation [c; x; y] [1; 9; 10] -> calculateScore c x y = 21)
  /\ (Permutation [c; x; y] [1; 2; 10] -> calculateScore c x y = 22)
  /\ (forall n, 1 <= n <= 8 -> Permutation [c; x; y] [n; n + 1; n + 2] ->
        calculateScore c x y = 22 + n).
Proof.
  intros Hc Hx Hy. repeat split.
  - unfold calculateScore.
    rewrite (sorted_perm_eq [c; x; y] [c; y; x])
      by (apply perm_skip, perm_swap).
    replace ((c =? y) && (y =? x)) with ((c =? x) && (x =? y)).
    + now rewrite (orb_comm (c =? y)).
    + destruct (Z.eqb_spec c x), (Z.eqb_spec x y), (Z.eqb_spec c y),
        (Z.eqb_spec y x); simpl; try reflexivity; lia.
  - intros HP. unfold calculateScore.
    now rewrite (sorted_perm_eq _ _ HP).
  - intros HP. unfold calculateScore.
    now rewrite (sorted_perm_eq _ _ HP).
  - intros n Hn HP. unfold calculateScore.
    rewrite (sorted_perm_eq _ _ HP), sorted_run.
    destruct (tuple_eqb [n; n + 1; n + 2] [1; 9; 10]) eqn:E1.
    { apply tuple_eqb_eq in E1. injection E1; lia. }
    destruct (tuple_eqb [n; n + 1; n + 2] [1; 2; 10]) eqn:E2.
    { apply tuple_eqb_eq in E2. injection E2; lia. }
    unfold item; simpl nth.
    rewrite (Z.mod_small n 10), (Z.mod_small (n + 1) 10) by lia.
    rewrite Z.eqb_refl. cbn [andb].
    replace (n + 2 =? n + 1 + 1) with true by (symmetry; apply Z.eqb_eq; lia).
    lia.
Qed.

Lemma calculateScore_symmetric_straights_witness :
  calculateScore 10 1 9 = calculateScore 10 9 1
  /\ calculateScore 10 1 9 = 21
  /\ calculateScore 2 10 1 = calculateScore 2 1 10
  /\ calculateScore 2 10 1 = 22
  /\ calculateScore 9 10 8 = 22 + 8.
Proof.
  pose proof (calculateScore_symmetric_straights 10 1 9
                ltac:(lia) ltac:(lia) ltac:(lia)) as [H1 [H2 _]].
  pose proof (calculateScore_symmetric_straights 2 10 1
                ltac:(lia) ltac:(lia) ltac:(lia)) as [H3 [_ [H4 _]]].
  pose proof (calculateScore_symmetric_straights 9 10 8
                ltac:(lia) ltac:(lia) ltac:(lia)) as [_ [_ [_ H5]]].
  split; [exact H1|].
  split.
  { apply H2.
    change [10; 1; 9] with ([10] ++ [1; 9]).
    change [1; 9; 10] with ([1; 9] ++ [10]).
    apply Permutation_app_comm. }
  split; [exact H3|].
  split.
  { apply H4.
    apply (perm_trans (l' := [10; 2; 1])); [apply perm_swap|].
    apply (perm_trans (l' := [10; 1; 2])); [apply perm_skip, perm_swap|].
    change [10; 1; 2] with ([10] ++ [1; 2]).
    change [1; 2; 10] with ([1; 2] ++ [10]).
    apply Permutation_app_comm. }
  apply (H5 8); [lia|].
  apply (perm_trans (l' := [9; 8; 10])); [apply perm_skip, perm_swap|].
  apply perm_swap.
Defined.

(** ** The betting loop *)

Section RoundFacts.

Context {W Rng : Type}.
Variable play_a : VisibleState -> W -> Z * W.
Variable play_b : VisibleState -> W -> Z * W.
Variable sample : Rng -> list Z -> Deal * Rng.

Local Abbreviation turnAB := (turn play_a play_b).
Local Abbreviation decisionAB := (decision play_a play_b).
Local Abbreviation bettingAB := (betting play_a play_b).
Local Abbreviation playRoundAB := (playRound play_a play_b sample).

Lemma all_in_le (g : IPGame Rng) (p : Z) :
  all_in g p <= Z.min (a_chips g) (b_chips g).
Proof.
  unfold all_in.
  destruct (Z.geb_spec p (Z.min (a_chips g) (b_chips g))); lia.
Qed.

Lemma all_in_le_proposal (g : IPGame Rng) (p : Z) : all_in g p <= p.
Proof.
  unfold all_in.
  destruct (Z.geb_spec p (Z.min (a_chips g) (b_chips g))); lia.
Qed.

(** The two outcomes of a pass, by the comparison that selects them. *)
Lemma turn_cases (g : IPGame Rng) (d : Deal) (rs : RoundState) (w : W) :
  let p := all_in g (fst (decisionAB g d rs w)) in
  (p < current_bet rs
   /\ turnAB g d rs w = Folded (fold g d rs) (snd (decisionAB g d rs w)))
  \/ (current_bet rs <= p
      /\ turnAB g d rs w
         = Played (raise_or_call rs p) (snd (decisionAB g d rs w))).
Proof.
  unfold turn. destruct (decisionAB g d rs w) as [bet w']. simpl.
  destruct (Z.ltb_spec (all_in g bet) (current_bet rs)); [left|right];
    split; auto.
Qed.

Lemma raise_or_call_flags (rs : RoundState) (p : Z) :
  a_can_raise (raise_or_call rs p) || b_can_raise (raise_or_call rs p)
  = (p >? current_bet rs).
Proof.
  unfold raise_or_call. destruct (a_turn rs); simpl.
  - reflexivity.
  - apply orb_false_r.
Qed.

Lemma raise_or_call_current_bet (rs : RoundState) (p : Z) :
  current_bet (raise_or_call rs p)
  = Z.max (current_bet rs)
          (if a_turn rs then Z.max p (b_bet rs) else Z.max (a_bet rs) p).
Proof. unfold raise_or_call. destruct (a_turn rs); reflexivity. Qed.

Lemma passes_left_decreases (g : IPGame Rng) (rs : RoundState) (p : Z) :
  current_bet rs <= p ->
  p <= Z.min (a_chips g) (b_chips g) ->
  a_can_raise rs || b_can_raise rs = true ->
  (passes_left g (raise_or_call rs p) < passes_left g rs)%nat.
Proof.
  intros Hlo Hhi Hflags. unfold passes_left.
  rewrite Hflags, raise_or_call_flags, raise_or_call_current_bet.
  destruct (Z.gtb_spec p (current_bet rs)); [|lia].
  destruct (a_turn rs); lia.
Qed.

Lemma betting_enough (g : IPGame Rng) (d : Deal) (fuel : nat) :
  forall (rs : RoundState) (w : W),
    (passes_left g rs <= fuel)%nat ->
    exists r, bettingAB fuel g d rs w = Some r.
Proof.
  induction fuel as [|fuel IH]; intros rs w Hfuel.
  - unfold passes_left in Hfuel. simpl.
    destruct (a_can_raise rs || b_can_raise rs); [lia|eauto].
  - simpl. destruct (a_can_raise rs || b_can_raise rs) eqn:Hflags;
      [|eauto].
    destruct (turn_cases g d rs w) as [[_ ->]|[Hp ->]]; [eauto|].
    apply IH.
    pose proof (passes_left_decreases g rs _ Hp (all_in_le g _) Hflags).
    lia.
Qed.

Lemma betting_more_fuel (g : IPGame Rng) (d : Deal) (fuel : nat) :
  forall (rs : RoundState) (w : W) r (fuel' : nat),
    bettingAB fuel g d rs w = Some r ->
    (fuel <= fuel')%nat ->
    bettingAB fuel' g d rs w = Some r.
Proof.
  induction fuel as [|fuel IH]; intros rs w r fuel' Hrun Hle.
  - simpl in Hrun. destruct fuel'; simpl;
      destruct (a_can_raise rs || b_can_raise rs); congruence.
  - destruct fuel' as [|fuel']; [lia|]. simpl in *.
    destruct (a_can_raise rs || b_can_raise rs); [|assumption].
    destruct (turnAB g d rs w); [assumption|].
    apply IH; [assumption|lia].
Qed.

Lemma passes_left_opening (g : IPGame Rng) (r : Rng) :
  passes_left (with_rng g r) (opening g) = round_fuel g.
Proof. reflexivity. Qed.

Lemma playRound_total (g : IPGame Rng) (w : W) :
  exists r, playRoundAB g w = Some r.
Proof.
  unfold playRound. destruct (sample (rng g) (deck g)) as [d r].
  apply betting_enough. now rewrite passes_left_opening.
Qed.

Lemma bets_matched_opening (g : IPGame Rng) (r : Rng) :
  bets_matched (with_rng g r) (opening g).
Proof.
  unfold bets_matched, opening; simpl.
  destruct (a_first g); repeat split; try lia; discriminate.
Qed.

Lemma bets_matched_raise_or_call (g : IPGame Rng) (rs : RoundState) (p : Z) :
  bets_matched g rs ->
  current_bet rs <= p ->
  p <= Z.min (a_chips g) (b_chips g) ->
  bets_matched g (raise_or_call rs p)
  /\ current_bet (raise_or_call rs p) = p.
Proof.
  unfold bets_matched. intros (Ha & Hb & Hother & _ & Hlo & Hhi) Hp Hmin.
  assert (Hcur : current_bet (raise_or_call rs p) = p)
    by (rewrite raise_or_call_current_bet; destruct (a_turn rs); lia).
  split; [|exact Hcur].
  rewrite Hcur. pose proof (raise_or_call_flags rs p) as Hflags.
  unfold raise_or_call in *. destruct (a_turn rs); simpl in *.
  - repeat split; try lia.
    all: intros Hclosed; rewrite Hclosed in Hflags;
      destruct (Z.gtb_spec p (current_bet rs)); [discriminate|lia].
  - repeat split; try lia.
    all: intros Hclosed; rewrite Hclosed in Hflags;
      destruct (Z.gtb_spec p (current_bet rs)); [discriminate|lia].
Qed.

(** What a finished betting loop returns, from any loop state. *)
Lemma betting_spec (g : IPGame Rng) (d : Deal) (fuel : nat) :
  forall (rs : RoundState) (w : W) g' w' e,
    bets_matched g rs ->
    bettingAB fuel g d rs w = Some (g', w', e) ->
    cards e = d
    /\ bets_matched g (at_state e)
    /\ match exit e with
       | Fold =>
           a_can_raise (at_state e) || b_can_raise (at_state e) = true
           /\ (exists w0,
                 turnAB g d (at_state e) w0 = Folded g' w'
                 /\ all_in g (fst (decisionAB g d (at_state e) w0))
                    < current_bet (at_state e))
           /\ g' = fold g d (at_state e)
       | Showdown =>
           a_can_raise (at_state e) || b_can_raise (at_state e) = false
           /\ g' = reveal g d (at_state e)
       end.
Proof.
  induction fuel as [|fuel IH]; intros rs w g' w' e Hinv Hrun; simpl in Hrun;
    destruct (a_can_raise rs || b_can_raise rs) eqn:Hflags;
    try discriminate.
  - injection Hrun as <- <- <-. simpl. auto.
  - destruct (turn_cases g d rs w) as [[Hp Ht]|[Hp Ht]];
      rewrite Ht in Hrun.
    + injection Hrun as <- <- <-. simpl.
      split; [reflexivity|]. split; [assumption|]. split; [assumption|].
      split; [|reflexivity]. exists w. split; assumption.
    + apply IH in Hrun; [assumption|].
      now apply bets_matched_raise_or_call; [| |apply all_in_le].
  - injection Hrun as <- <- <-. simpl. auto.
Qed.

(** The same for a whole round: [d] is the deal that [playRound] draws
    and [g0] the game once the generator has advanced. *)
Lemma playRound_spec (g : IPGame Rng) (w : W) g' w' e :
  playRoundAB g w = Some (g', w', e) ->
  let d := fst (sample (rng g) (deck g)) in
  let g0 := with_rng g (snd (sample (rng g) (deck g))) in
  cards e = d
  /\ bets_matched g0 (at_state e)
  /\ match exit e with
     | Fold =>
         a_can_raise (at_state e) || b_can_raise (at_state e) = true
         /\ (exists w0,
               turnAB g0 d (at_state e) w0 = Folded g' w'
               /\ all_in g0 (fst (decisionAB g0 d (at_state e) w0))
                  < current_bet (at_state e))
         /\ g' = fold g0 d (at_state e)
     | Showdown =>
         a_can_raise (at_state e) || b_can_raise (at_state e) = false
         /\ g' = reveal g0 d (at_state e)
     end.
Proof.
  unfold playRound. destruct (sample (rng g) (deck g)) as [d r].
  cbn [fst snd]. intros Hrun.
  apply (betting_spec _ _ _ _ _ _ _ _ (bets_matched_opening g r) Hrun).
Qed.

(** The amount the fold branch moves is the current bet plus the
    penalty of the specification's rule. *)
Lemma fold_chips (g : IPGame Rng) (d : Deal) (rs : RoundState) :
  let s_f := if a_turn rs then score_a d else score_b d in
  let s_o := if a_turn rs then score_b d else score_a d in
  let paid := current_bet rs + penalty_rule s_f s_o in
  if a_turn rs
  then a_chips (fold g d rs) = a_chips g - paid
       /\ b_chips (fold g d rs) = b_chips g + paid
       /\ a_first (fold g d rs) = false
  else b_chips (fold g d rs) = b_chips g - paid
       /\ a_chips (fold g d rs) = a_chips g + paid
       /\ a_first (fold g d rs) = true.
Proof.
  unfold fold, penalty_rule, score_a, score_b.
  set (sa := calculateScore (a_card d) (common1 d) (common2 d)).
  set (sb := calculateScore (b_card d) (common1 d) (common2 d)).
  destruct (a_turn rs); simpl.
  - destruct (Z.gtb_spec sa sb), (Z.gtb_spec sa 20), (Z.gtb_spec sa 10),
      (Z.ltb_spec 10 sa), (Z.leb_spec sa 20); simpl;
      repeat split; lia.
  - destruct (Z.gtb_spec sb sa), (Z.gtb_spec sb 20), (Z.gtb_spec sb 10),
      (Z.ltb_spec 10 sb), (Z.leb_spec sb 20); simpl;
      repeat split; lia.
Qed.

Lemma reveal_chips (g : IPGame Rng) (d : Deal) (rs : RoundState) :
  if score_a d >? score_b d
  then a_chips (reveal g d rs) = a_chips g + a_bet rs
       /\ b_chips (reveal g d rs) = b_chips g - a_bet rs
       /\ a_first (reveal g d rs) = true
  else a_chips (reveal g d rs) = a_chips g - a_bet rs
       /\ b_chips (reveal g d rs) = b_chips g + a_bet rs
       /\ a_first (reveal g d rs) = false.
Proof.
  unfold reveal, showdown, score_a, score_b.
  set (sa := calculateScore (a_card d) (common1 d) (common2 d)).
  set (sb := calculateScore (b_card d) (common1 d) (common2 d)).
  destruct (Z.eqb_spec sa sb), (Z.gtb_spec sa sb); simpl; auto; lia.
Qed.

End RoundFacts.

(** ** Properties of a round *)

Section RoundClaims.

Context {W Rng : Type}.
Variable play_a : VisibleState -> W -> Z * W.
Variable play_b : VisibleState -> W -> Z * W.
Variable sample : Rng -> list Z -> Deal * Rng.

Local Abbreviation turnAB := (turn play_a play_b).
Local Abbreviation decisionAB := (decision play_a play_b).
Local Abbreviation bettingAB := (betting play_a play_b).
Local Abbreviation playRoundAB := (playRound play_a play_b sample).

(** Every resolution moves chips from one stack to the other. *)
Lemma playRound_sum (g : IPGame Rng) (w : W) g' w' e :
  playRoundAB g w = Some (g', w', e) ->
  a_chips g' + b_chips g' = a_chips g + b_chips g.
Proof.
  intros Hrun. apply playRound_spec in Hrun.
  destruct Hrun as (_ & _ & Hexit).
  set (d := fst (sample (rng g) (deck g))) in *.
  set (g0 := with_rng g (snd (sample (rng g) (deck g)))) in *.
  destruct (exit e).
  - destruct Hexit as (_ & _ & ->).
    pose proof (fold_chips g0 d (at_state e)) as H.
    destruct (a_turn (at_state e)); simpl in H;
      destruct H as (-> & -> & _); simpl; lia.
  - destruct Hexit as (_ & ->).
    pose proof (reveal_chips g0 d (at_state e)) as H.
    destruct (score_a d >? score_b d); destruct H as (-> & -> & _);
      simpl; lia.
Qed.

(** A round changes neither the blind nor the round limit. *)
Lemma playRound_settings (g : IPGame Rng) (w : W) g' w' e :
  playRoundAB g w = Some (g', w', e) ->
  blind g' = blind g /\ max_length g' = max_length g
  /\ seed g' = seed g /\ deck g' = deck g.
Proof.
  intros Hrun. apply playRound_spec in Hrun.
  destruct Hrun as (_ & _ & Hexit).
  destruct (exit e).
  - destruct Hexit as (_ & _ & ->). unfold fold.
    destruct (a_turn (at_state e)); simpl; auto.
  - destruct Hexit as (_ & ->). unfold reveal.
    destruct (showdown _ _ _ _); simpl; auto.
Qed.

(** [C1], as the code has it.  When a round ends in a showdown with
    equal scores, both sides have matched the current bet, that
    amount moves from A's stack to B's stack, and B is first to act
    in the next round, whichever side acted first in this one. *)
Theorem draw_moves_bet_from_A_to_B (g : IPGame Rng) (w : W) g' w' e :
  playRoundAB g w = Some (g', w', e) ->
  exit e = Showdown ->
  score_a (cards e) = score_b (cards e) ->
  a_bet (at_state e) = current_bet (at_state e)
  /\ b_bet (at_state e) = current_bet (at_state e)
  /\ a_chips g' = a_chips g - current_bet (at_state e)
  /\ b_chips g' = b_chips g + current_bet (at_state e)
  /\ a_first g' = false.
Proof.
  intros Hrun Hexit Hdraw. apply playRound_spec in Hrun.
  destruct Hrun as (Hcards & Hinv & Hend).
  rewrite Hexit in Hend. destruct Hend as (Hclosed & ->).
  destruct Hinv as (_ & _ & _ & Hboth & _).
  destruct (Hboth Hclosed) as [Ha Hb].
  rewrite Hcards in Hdraw.
  pose proof (reveal_chips
                (with_rng g (snd (sample (rng g) (deck g))))
                (fst (sample (rng g) (deck g))) (at_state e)) as H.
  rewrite Hdraw in H.
  destruct (Z.gtb_spec (score_b (fst (sample (rng g) (deck g))))
                       (score_b (fst (sample (rng g) (deck g)))));
    [lia|].
  destruct H as (-> & -> & ->). rewrite Ha. simpl. auto.
Qed.

(** [C2] When a round ends in a fold, the folder's stack goes down by
    the current bet plus the penalty of the rule, the other stack
    goes up by the same amount, and the side that did not fold is
    first to act in the next round.  The side that folded is the one
    whose turn it was, and its proposal, once capped, was below the
    current bet. *)
Theorem fold_moves_bet_and_penalty (g : IPGame Rng) (w : W) g' w' e :
  playRoundAB g w = Some (g', w', e) ->
  exit e = Fold ->
  let paid :=
    current_bet (at_state e)
    + penalty_rule (folder_score e) (opponent_score e) in
  (exists w0,
      all_in g (fst (decisionAB
                       (with_rng g (snd (sample (rng g) (deck g))))
                       (cards e) (at_state e) w0))
      < current_bet (at_state e))
  /\ if a_turn (at_state e)
     then a_chips g' = a_chips g - paid
          /\ b_chips g' = b_chips g + paid
          /\ a_first g' = false
     else b_chips g' = b_chips g - paid
          /\ a_chips g' = a_chips g + paid
          /\ a_first g' = true.
Proof.
  intros Hrun Hexit. apply playRound_spec in Hrun.
  destruct Hrun as (Hcards & _ & Hend).
  rewrite Hexit in Hend. destruct Hend as (_ & (w0 & _ & Hlow) & ->).
  cbv zeta. split.
  - exists w0. rewrite Hcards. exact Hlow.
  - unfold folder_score, opponent_score. rewrite Hcards.
    apply (fold_chips (with_rng g (snd (sample (rng g) (deck g))))).
Qed.

(** [C3], as the code has it.  When a round ends in a fold with a
    non-zero penalty, the penalty is part of what the folder pays to
    the other side: the total of the two stacks after the round is
    the total before it. *)
Theorem penalty_fold_keeps_total (g : IPGame Rng) (w : W) g' w' e :
  playRoundAB g w = Some (g', w', e) ->
  exit e = Fold ->
  round_penalty e <> 0 ->
  a_chips g' + b_chips g' = a_chips g + b_chips g.
Proof. intros Hrun _ _. exact (playRound_sum _ _ _ _ _ Hrun). Qed.

(** [C4] When the resolution of a round adds no fold penalty (every
    showdown, and every fold whose penalty is zero), the total of the
    two stacks after the round is the total before it. *)
Theorem round_without_penalty_keeps_total (g : IPGame Rng) (w : W) g' w' e :
  playRoundAB g w = Some (g', w', e) ->
  round_penalty e = 0 ->
  a_chips g' + b_chips g' = a_chips g + b_chips g.
Proof. intros Hrun _. exact (playRound_sum _ _ _ _ _ Hrun). Qed.

(** The fields of the snapshot built at one loop state, and the fact
    that this construction does not read the mover's own card. *)
Lemma visible_state_fields
    (g : IPGame Rng) (d : Deal) (rs : RoundState) (w : W) :
  let vs := visible_state g d rs in
  common_card_1 vs = common1 d
  /\ common_card_2 vs = common2 d
  /\ other_players_card vs = (if a_turn rs then b_card d else a_card d)
  /\ own_chips vs = (if a_turn rs then a_chips g else b_chips g)
  /\ others_chips vs = (if a_turn rs then b_chips g else a_chips g)
  /\ own_current_bet vs = (if a_turn rs then a_bet rs else b_bet rs)
  /\ others_current_bet vs = (if a_turn rs then b_bet rs else a_bet rs)
  /\ other_played vs
     = negb (if a_turn rs then b_can_raise rs else a_can_raise rs)
  /\ decisionAB g d rs w = (if a_turn rs then play_a else play_b) vs w
  /\ (forall c : Z,
        visible_state g (with_own_card rs d c) rs = vs
        /\ decisionAB g (with_own_card rs d c) rs w = decisionAB g d rs w).
Proof.
  unfold decision, current_player, visible_state, with_own_card.
  destruct (a_turn rs); simpl; repeat split; reflexivity.
Qed.

(** [C9], as the code has it.  In a round entered with
    [0 <= blind <= min(a_chips, b_chips)] the current bet never
    exceeds the shorter stack, and when the round adds no fold
    penalty both stacks are non-negative after it. *)
Theorem round_without_penalty_keeps_stacks_nonnegative
    (g : IPGame Rng) (w : W) g' w' e :
  0 <= blind g ->
  blind g <= a_chips g ->
  blind g <= b_chips g ->
  playRoundAB g w = Some (g', w', e) ->
  round_penalty e = 0 ->
  current_bet (at_state e) <= Z.min (a_chips g) (b_chips g)
  /\ 0 <= a_chips g'
  /\ 0 <= b_chips g'.
Proof.
  intros Hblind Ha Hb Hrun Hpen. apply playRound_spec in Hrun.
  destruct Hrun as (Hcards & Hinv & Hend).
  destruct Hinv as (_ & _ & _ & Hboth & Hlo & Hhi). simpl in Hlo, Hhi.
  assert (Hcap : current_bet (at_state e) <= Z.min (a_chips g) (b_chips g))
    by lia.
  split; [exact Hcap|].
  unfold round_penalty, folder_score, opponent_score in Hpen.
  rewrite Hcards in Hpen.
  set (d := fst (sample (rng g) (deck g))) in *.
  set (g0 := with_rng g (snd (sample (rng g) (deck g)))) in *.
  destruct (exit e).
  - destruct Hend as (_ & _ & ->).
    pose proof (fold_chips g0 d (at_state e)) as H. cbv zeta in H.
    rewrite Hpen in H.
    destruct (a_turn (at_state e)); destruct H as (-> & -> & _);
      simpl; lia.
  - destruct Hend as (Hclosed & ->).
    destruct (Hboth Hclosed) as [Hab _].
    pose proof (reveal_chips g0 d (at_state e)) as H.
    destruct (score_a d >? score_b d); destruct H as (-> & -> & _);
      simpl; lia.
Qed.

(** [C10] [playRound] returns for every pair of agents and every
    game, and the number of passes it needs depends on the stacks
    and the blind only; from any loop state the betting loop ends
    after finitely many passes.  In a pass, a proposal below the
    current bet folds; a proposal that does not exceed the current
    bet either folds or leaves both can-raise flags down; a capped
    proposal above the current bet raises the current bet strictly,
    and when no bet was above the current bet before, the new
    current bet is that proposal, at most the shorter stack. *)
Theorem playRound_terminates :
  (forall (g : IPGame Rng) (w : W), exists r, playRoundAB g w = Some r)
  /\ (forall (g : IPGame Rng) (limit : Z),
        round_fuel (mkIPGame (seed g) (blind g) (a_chips g) (b_chips g)
                             limit (deck g) (a_first g) (rng g))
        = round_fuel g)
  /\ (forall (g : IPGame Rng) (d : Deal) (rs : RoundState) (w : W),
        exists r, forall fuel,
          (passes_left g rs <= fuel)%nat ->
          bettingAB fuel g d rs w = Some r)
  /\ (forall (g : IPGame Rng) (d : Deal) (rs : RoundState) (w : W),
        let bet := fst (decisionAB g d rs w) in
        (bet < current_bet rs ->
         exists g' w', turnAB g d rs w = Folded g' w')
        /\ (bet <= current_bet rs ->
            (exists g' w', turnAB g d rs w = Folded g' w')
            \/ (exists rs' w',
                   turnAB g d rs w = Played rs' w'
                   /\ a_can_raise rs' = false
                   /\ b_can_raise rs' = false))
        /\ (current_bet rs < all_in g bet ->
            exists rs' w',
              turnAB g d rs w = Played rs' w'
              /\ current_bet rs < current_bet rs'
              /\ (a_bet rs <= current_bet rs ->
                  b_bet rs <= current_bet rs ->
                  current_bet rs' = all_in g bet
                  /\ current_bet rs'
                     <= Z.min (a_chips g) (b_chips g)))).
Proof.
  split; [apply playRound_total|].
  split; [reflexivity|].
  split.
  { intros g d rs w.
    destruct (betting_enough play_a play_b g d (passes_left g rs) rs w
                (le_n _)) as [r Hr].
    exists r. intros fuel Hfuel.
    exact (betting_more_fuel play_a play_b g d _ rs w r fuel Hr Hfuel). }
  intros g d rs w bet.
  pose proof (all_in_le_proposal g bet) as Hcap.
  pose proof (all_in_le g bet) as Hmin.
  destruct (turn_cases play_a play_b g d rs w) as [[Hp Ht]|[Hp Ht]];
    fold bet in Hp, Ht.
  - split; [eauto|]. split; [eauto|]. intros Hraise. lia.
  - split; [intros Hlow; lia|].
    split.
    + intros Hle. right.
      eexists; eexists. split; [exact Ht|].
      pose proof (raise_or_call_flags rs (all_in g bet)) as Hflags.
      destruct (Z.gtb_spec (all_in g bet) (current_bet rs)); [lia|].
      now apply orb_false_iff in Hflags.
    + intros Hraise.
      eexists; eexists. split; [exact Ht|].
      rewrite raise_or_call_current_bet.
      split; [destruct (a_turn rs); lia|].
      intros Ha Hb. destruct (a_turn rs); lia.
Qed.

End RoundClaims.

(** ** Properties of a game and of a tournament *)

Section GameClaims.

Context {W Rng : Type}.
Variable play_a : VisibleState -> W -> Z * W.
Variable play_b : VisibleState -> W -> Z * W.
Variable sample : Rng -> list Z -> Deal * Rng.
Variable Random : Z -> Rng.

Local Abbreviation playRoundAB := (playRound play_a play_b sample).
Local Abbreviation roundsAB := (rounds play_a play_b sample).
Local Abbreviation playGame_runAB := (playGame_run play_a play_b sample).
Local Abbreviation playGameAB := (playGame play_a play_b sample).

Lemma rounds_enough (fuel : nat) :
  forall (g : IPGame Rng) (w : W) (length : Z),
    (Z.to_nat (max_length g - length) <= fuel)%nat ->
    exists r, roundsAB fuel g w length = Some r.
Proof.
  induction fuel as [|fuel IH]; intros g w length Hfuel; simpl.
  - destruct (a_chips g >? 0), (b_chips g >? 0),
      (Z.ltb_spec length (max_length g)); simpl; eauto. lia.
  - destruct ((a_chips g >? 0) && (b_chips g >? 0)); simpl; [|eauto].
    destruct (Z.ltb_spec length (max_length g)); [|eauto].
    destruct (playRound_total play_a play_b sample g w)
      as [[[g' w'] e] Hround].
    rewrite Hround.
    destruct (playRound_settings _ _ _ _ _ _ _ _ Hround) as (_ & Hmax & _).
    apply IH. rewrite Hmax. lia.
Qed.

(** The state in which the loop of [playGame] is left. *)
Lemma rounds_spec (fuel : nat) :
  forall (g : IPGame Rng) (w : W) (length : Z) g' w' length',
    roundsAB fuel g w length = Some (g', w', length') ->
    max_length g' = max_length g
    /\ blind g' = blind g
    /\ a_chips g' + b_chips g' = a_chips g + b_chips g
    /\ length <= length' <= Z.max length (max_length g)
    /\ keeps_playing g' length' = false.
Proof.
  unfold keeps_playing.
  induction fuel as [|fuel IH]; intros g w length g' w' length' Hrun;
    simpl in Hrun;
    destruct ((a_chips g >? 0) && (b_chips g >? 0) && (length <? max_length g))
      eqn:Hguard; try discriminate.
  - injection Hrun as <- <- <-. repeat split; auto; lia.
  - destruct (playRoundAB g w) as [[[g1 w1] e]|] eqn:Hround;
      [|discriminate].
    apply IH in Hrun.
    destruct (playRound_settings _ _ _ _ _ _ _ _ Hround)
      as (Hblind & Hmax & _).
    pose proof (playRound_sum _ _ _ _ _ _ _ _ Hround) as Hsum.
    apply andb_true_iff in Hguard. destruct Hguard as [_ Hlen].
    apply Z.ltb_lt in Hlen.
    destruct Hrun as (-> & -> & -> & Hlen' & Hstop).
    rewrite Hmax in *. repeat split; auto; lia.
  - injection Hrun as <- <- <-. repeat split; auto; lia.
Qed.

Lemma playGame_run_total (g : IPGame Rng) (w : W) :
  exists r, playGame_runAB g w = Some r.
Proof. apply rounds_enough. rewrite Z.sub_0_r. apply le_n. Qed.

Lemma playGame_total (g : IPGame Rng) (w : W) :
  exists r, playGameAB g w = Some r.
Proof.
  unfold playGame.
  destruct (playGame_run_total g w) as [[[g' w'] length] ->]. eauto.
Qed.

Lemma play_games_total (games : list (IPGame Rng)) :
  forall (t : IPTournament) (w : W),
    exists r, play_games play_a play_b sample games t w = Some r.
Proof.
  induction games as [|game rest IH]; intros t w; simpl; [eauto|].
  destruct (playGame_total game w) as [[[pa pb] w'] ->]. apply IH.
Qed.

(** With the default blind of 1, the loop of [playGame] only starts
    a round from stacks that cover the blind. *)
Lemma keeps_playing_covers_blind (g : IPGame Rng) (length : Z) :
  blind g = 1 ->
  keeps_playing g length = true ->
  0 <= blind g /\ blind g <= a_chips g /\ blind g <= b_chips g.
Proof.
  unfold keeps_playing. intros -> Hguard.
  apply andb_true_iff in Hguard. destruct Hguard as [Hguard _].
  apply andb_true_iff in Hguard. destruct Hguard as [Ha Hb].
  apply Z.gtb_lt in Ha, Hb. lia.
Qed.

(** [C6], as the code has it.  [playGame] returns; the loop is left
    after at most [max_length] rounds; the result is (0.5, 0.5)
    exactly when the round counter has reached [max_length], also
    when a stack was emptied by the last of those rounds; otherwise
    some stack is at or below zero, and A receives 1.0 and B 0.0 when
    A's stack is positive, B receives 1.0 and A 0.0 when it is not. *)
Theorem playGame_result (g : IPGame Rng) (w : W) :
  exists g' w' length,
    playGame_runAB g w = Some (g', w', length)
    /\ playGameAB g w = Some (points g' length, w')
    /\ 0 <= length <= Z.max 0 (max_length g)
    /\ (points g' length = (1 # 2, 1 # 2)%Q <-> max_length g <= length)
    /\ (length < max_length g ->
        (a_chips g' <= 0 \/ b_chips g' <= 0)
        /\ (0 < a_chips g' -> points g' length = (1, 0)%Q)
        /\ (a_chips g' <= 0 -> points g' length = (0, 1)%Q)).
Proof.
  destruct (playGame_run_total g w) as [[[g' w'] length] Hrun].
  exists g', w', length.
  split; [exact Hrun|].
  split; [unfold playGame; now rewrite Hrun|].
  apply rounds_spec in Hrun.
  destruct Hrun as (Hmax & _ & _ & Hlen & Hstop).
  split; [exact Hlen|].
  unfold points, keeps_playing in *. rewrite Hmax in *.
  destruct (Z.geb_spec length (max_length g)) as [Hge|Hlt].
  - split; [split; [lia|reflexivity]|]. lia.
  - destruct (Z.ltb_spec length (max_length g)); [|lia].
    rewrite andb_true_r in Hstop.
    split.
    { split; [|lia].
      destruct (a_chips g' >? 0); discriminate. }
    intros _.
    destruct (Z.gtb_spec (a_chips g') 0), (Z.gtb_spec (b_chips g') 0);
      try discriminate; repeat split; intros; try reflexivity; lia.
Qed.

Lemma range_nth (lo hi : Z) (j : nat) (i : Z) :
  nth_error (range lo hi) j = Some i ->
  i = lo + Z.of_nat j /\ Z.of_nat j < hi - lo.
Proof.
  unfold range. intros Hnth.
  rewrite nth_error_map in Hnth.
  destruct (nth_error (seq 0 (Z.to_nat (hi - lo))) j) as [k|] eqn:Hk;
    [|discriminate].
  injection Hnth as <-.
  assert (Hj : (j < length (seq 0 (Z.to_nat (hi - lo))))%nat)
    by (apply nth_error_Some; congruence).
  rewrite length_seq in Hj.
  apply nth_error_nth with (d := O) in Hk.
  rewrite seq_nth in Hk by exact Hj. lia.
Qed.

(** [C7], as the code has it.  The tournament plays
    [tournament_games], one game per offset [j] below [num_games];
    the [j]-th game is built with seed [seed + j], the defaults of
    the constructor and a generator seeded with [seed + j], and side
    A acts first in it exactly when the seed [seed + j] of that game
    is even. *)
Theorem tournament_game_seed_and_first
    (t : IPTournament) (j : nat) (g : IPGame Rng) :
  nth_error (tournament_games Random t) j = Some g ->
  Z.of_nat j < num_games t
  /\ g = IPGame_init Random (tournament_seed t + Z.of_nat j)
                     (Z.even (tournament_seed t + Z.of_nat j))
                     20 1 100000
  /\ seed g = tournament_seed t + Z.of_nat j
  /\ (a_first g = true
      <-> Z.even (tournament_seed t + Z.of_nat j) = true).
Proof.
  unfold tournament_games. intros Hnth.
  rewrite nth_error_map in Hnth.
  destruct (nth_error (range _ _) j) as [i|] eqn:Hi; [|discriminate].
  injection Hnth as <-.
  apply range_nth in Hi. destruct Hi as [-> Hj].
  assert (Heven : forall i, (i mod 2 =? 0) = Z.even i).
  { intros i. rewrite Zeven_mod. reflexivity. }
  unfold new_game. rewrite Heven.
  split; [lia|]. split; [reflexivity|]. split; [reflexivity|].
  simpl. tauto.
Qed.

End GameClaims.

(** ** The properties on concrete rounds and games *)

Lemma draw_moves_bet_from_A_to_B_witness :
  exists g' e,
    playRound (Demo.always 1) (Demo.always 1) Demo.sample
              (Demo.game false 20 100000 [Demo.fives]) tt
    = Some (g', tt, e)
    /\ exit e = Showdown
    /\ score_a (cards e) = score_b (cards e)
    /\ a_chips g' = 20 - 1
    /\ b_chips g' = 20 + 1
    /\ a_first g' = false.
Proof.
  eexists; eexists.
  split; [vm_compute; reflexivity|].
  split; [reflexivity|].
  split; [reflexivity|].
  pose proof (draw_moves_bet_from_A_to_B
                (Demo.always 1) (Demo.always 1) Demo.sample
                (Demo.game false 20 100000 [Demo.fives]) tt _ _ _
                eq_refl eq_refl eq_refl) as (_ & _ & Ha & Hb & Hfirst).
  split; [exact Ha|]. split; [exact Hb|]. exact Hfirst.
Defined.

(** [C1] fails as stated: with B first to act and equal scores, the bet
    does not move from B to A, and A does not become first to act. *)
Lemma draw_with_B_first_counterexample :
  ~ (forall g' w' e,
        playRound (Demo.always 1) (Demo.always 1) Demo.sample
                  (Demo.game false 20 100000 [Demo.fives]) tt
        = Some (g', w', e) ->
        exit e = Showdown ->
        score_a (cards e) = score_b (cards e) ->
        b_chips g' = 20 - current_bet (at_state e)
        /\ a_chips g' = 20 + current_bet (at_state e)
        /\ a_first g' = true).
Proof.
  intros H.
  specialize (H _ _ _ eq_refl eq_refl eq_refl).
  destruct H as (_ & _ & H). discriminate H.
Qed.

Lemma fold_moves_bet_and_penalty_witness :
  exists g' e,
    playRound (Demo.always 0) (Demo.always 2) Demo.sample
              (Demo.game true 20 100000 [Demo.run_vs_seven]) tt
    = Some (g', tt, e)
    /\ exit e = Fold
    /\ a_turn (at_state e) = true
    /\ a_chips g' = 20 - (1 + 10)
    /\ b_chips g' = 20 + (1 + 10)
    /\ a_first g' = false.
Proof.
  eexists; eexists.
  split; [vm_compute; reflexivity|].
  split; [reflexivity|].
  split; [reflexivity|].
  pose proof (fold_moves_bet_and_penalty
                (Demo.always 0) (Demo.always 2) Demo.sample
                (Demo.game true 20 100000 [Demo.run_vs_seven]) tt _ _ _
                eq_refl eq_refl) as (_ & Ha & Hb & Hfirst).
  split; [exact Ha|]. split; [exact Hb|]. exact Hfirst.
Defined.

Lemma penalty_fold_keeps_total_witness :
  exists g' e,
    playRound (Demo.always 0) (Demo.always 2) Demo.sample
              (Demo.game true 20 100000 [Demo.run_vs_seven]) tt
    = Some (g', tt, e)
    /\ exit e = Fold
    /\ round_penalty e = 10
    /\ a_chips g' + b_chips g' = 20 + 20.
Proof.
  eexists; eexists.
  split; [vm_compute; reflexivity|].
  split; [reflexivity|].
  split; [reflexivity|].
  refine (penalty_fold_keeps_total
            (Demo.always 0) (Demo.always 2) Demo.sample
            (Demo.game true 20 100000 [Demo.run_vs_seven]) tt _ _ _
            eq_refl eq_refl _).
  vm_compute. discriminate.
Defined.

(** [C3] fails as stated: a fold with a penalty of 10 leaves the total
    of the two stacks at 40. *)
Lemma penalty_fold_total_counterexample :
  ~ (forall g' w' e,
        playRound (Demo.always 0) (Demo.always 2) Demo.sample
                  (Demo.game true 20 100000 [Demo.run_vs_seven]) tt
        = Some (g', w', e) ->
        exit e = Fold ->
        round_penalty e <> 0 ->
        a_chips g' + b_chips g' <> 20 + 20).
Proof.
  intros H.
  refine (H _ _ _ eq_refl eq_refl _ eq_refl).
  vm_compute. discriminate.
Qed.

Lemma round_without_penalty_keeps_total_witness :
  exists g' e,
    playRound (Demo.always 1) (Demo.always 1) Demo.sample
              (Demo.game false 20 100000 [Demo.fives]) tt
    = Some (g', tt, e)
    /\ round_penalty e = 0
    /\ a_chips g' + b_chips g' = 20 + 20.
Proof.
  eexists; eexists.
  split; [vm_compute; reflexivity|].
  split; [reflexivity|].
  exact (round_without_penalty_keeps_total
           (Demo.always 1) (Demo.always 1) Demo.sample
           (Demo.game false 20 100000 [Demo.fives]) tt _ _ _
           eq_refl eq_refl).
Defined.

Lemma playGame_result_witness :
  playGame (Demo.always 20) (Demo.always 20) Demo.sample
           (Demo.game true 20 1 [Demo.run_vs_seven]) tt
  = Some ((1 # 2, 1 # 2)%Q, tt)
  /\ playGame (Demo.always 0) (Demo.always 2) Demo.sample
              (Demo.game true 20 100000
                         [Demo.run_vs_seven; Demo.run_vs_seven]) tt
     = Some ((0, 1)%Q, tt).
Proof.
  split.
  - destruct (playGame_result
                (Demo.always 20) (Demo.always 20) Demo.sample
                (Demo.game true 20 1 [Demo.run_vs_seven]) tt)
      as (g' & w' & len & Hrun & Hgame & _ & [_ Hdraw] & _).
    rewrite Hgame. destruct w'.
    assert (E : playGame_run (Demo.always 20) (Demo.always 20) Demo.sample
                  (Demo.game true 20 1 [Demo.run_vs_seven]) tt
                = Some (settle (Demo.game true 20 1 []) 40 0 true, tt, 1))
      by (vm_compute; reflexivity).
    rewrite E in Hrun. injection Hrun as <- <-.
    rewrite Hdraw; [reflexivity|]. simpl. lia.
  - destruct (playGame_result
                (Demo.always 0) (Demo.always 2) Demo.sample
                (Demo.game true 20 100000
                           [Demo.run_vs_seven; Demo.run_vs_seven]) tt)
      as (g' & w' & len & Hrun & Hgame & _ & _ & Hout).
    rewrite Hgame. destruct w'.
    assert (E : playGame_run (Demo.always 0) (Demo.always 2) Demo.sample
                  (Demo.game true 20 100000
                             [Demo.run_vs_seven; Demo.run_vs_seven]) tt
                = Some (settle (Demo.game true 20 100000 []) (-3) 43 false,
                        tt, 2))
      by (vm_compute; reflexivity).
    rewrite E in Hrun. injection Hrun as <- <-.
    destruct Hout as (_ & _ & Hb); [simpl; lia|].
    rewrite Hb; [reflexivity|]. simpl. lia.
Defined.

(** [C6] fails as stated: when the stack of B is emptied by the round
    at which the counter reaches [max_length], the game is scored as a
    draw by exhaustion and A, who holds every chip, does not receive
    1.0. *)
Lemma elimination_on_last_round_counterexample :
  ~ (forall g' w' length,
        playGame_run (Demo.always 20) (Demo.always 20) Demo.sample
                     (Demo.game true 20 1 [Demo.run_vs_seven]) tt
        = Some (g', w', length) ->
        a_chips g' <= 0 \/ b_chips g' <= 0 ->
        playGame (Demo.always 20) (Demo.always 20) Demo.sample
                 (Demo.game true 20 1 [Demo.run_vs_seven]) tt
        = Some (if a_chips g' >? 0 then (1, 0)%Q else (0, 1)%Q, w')).
Proof.
  intros H.
  assert (E : playGame_run (Demo.always 20) (Demo.always 20) Demo.sample
                (Demo.game true 20 1 [Demo.run_vs_seven]) tt
              = Some (settle (Demo.game true 20 1 []) 40 0 true, tt, 1))
    by (vm_compute; reflexivity).
  specialize (H _ _ _ E (or_intror (Z.le_refl 0))).
  vm_compute in H. discriminate H.
Qed.

Lemma tournament_game_seed_and_first_witness :
  exists g,
    nth_error (tournament_games Demo.Random Demo.default_tournament) 1
    = Some g
    /\ seed g = 1 + 1
    /\ (a_first g = true <-> Z.even (1 + 1) = true).
Proof.
  eexists. split; [reflexivity|].
  pose proof (tournament_game_seed_and_first
                Demo.Random Demo.default_tournament 1 _ eq_refl)
    as (_ & _ & Hseed & Hfirst).
  split; [exact Hseed | exact Hfirst].
Defined.

(** [C7] fails as stated: with the default starting seed 1 the game at
    offset 0 has seed 1, and B acts first in it although the offset is
    even. *)
Lemma even_offset_counterexample :
  ~ (forall (j : nat) g,
        nth_error (tournament_games Demo.Random Demo.default_tournament) j
        = Some g ->
        seed g = 1 + Z.of_nat j
        /\ (a_first g = true <-> Nat.even j = true)).
Proof.
  intros H.
  destruct (H O _ eq_refl) as (_ & _ & Hfirst).
  specialize (Hfirst eq_refl). discriminate Hfirst.
Qed.

Lemma round_without_penalty_keeps_stacks_nonnegative_witness :
  exists g' e,
    playRound (Demo.always 1) (Demo.always 1) Demo.sample
              (Demo.game false 20 100000 [Demo.fives]) tt
    = Some (g', tt, e)
    /\ round_penalty e = 0
    /\ current_bet (at_state e) <= Z.min 20 20
    /\ 0 <= a_chips g'
    /\ 0 <= b_chips g'.
Proof.
  eexists; eexists.
  split; [vm_compute; reflexivity|].
  split; [reflexivity|].
  refine (round_without_penalty_keeps_stacks_nonnegative
            (Demo.always 1) (Demo.always 1) Demo.sample
            (Demo.game false 20 100000 [Demo.fives]) tt _ _ _
            _ _ _ eq_refl eq_refl); simpl; lia.
Defined.

(** [C9] fails as stated: a game of two rounds, each ended by a fold of
    A with a penalty of 10, is left with A's stack at -3. *)
Lemma negative_stack_counterexample :
  ~ (forall g' w' length,
        playGame_run (Demo.always 0) (Demo.always 2) Demo.sample
                     (Demo.game true 20 100000
                                [Demo.run_vs_seven; Demo.run_vs_seven]) tt
        = Some (g', w', length) ->
        0 <= a_chips g' /\ 0 <= b_chips g').
Proof.
  intros H.
  assert (E : playGame_run (Demo.always 0) (Demo.always 2) Demo.sample
                (Demo.game true 20 100000
                           [Demo.run_vs_seven; Demo.run_vs_seven]) tt
              = Some (settle (Demo.game true 20 100000 []) (-3) 43 false,
                      tt, 2))
    by (vm_compute; reflexivity).
  destruct (H _ _ _ E) as [Ha _]. simpl in Ha. lia.
Qed.

Lemma playRound_terminates_witness :
  (exists r,
      playRound (Demo.always 20) (Demo.always 20) Demo.sample
                (Demo.game true 20 1 [Demo.run_vs_seven]) tt = Some r)
  /\ (exists g' w',
        turn (Demo.always 0) (Demo.always 2)
             (Demo.game true 20 100000 []) Demo.run_vs_seven
             (opening (Demo.game true 20 100000 [])) tt
        = Folded g' w').
Proof.
  destruct (@playRound_terminates unit (list Deal)
              (Demo.always 20) (Demo.always 20) Demo.sample)
    as (Hround & _).
  destruct (@playRound_terminates unit (list Deal)
              (Demo.always 0) (Demo.always 2) Demo.sample)
    as (_ & _ & _ & Hturn).
  split.
  - apply Hround.
  - destruct (Hturn (Demo.game true 20 100000 []) Demo.run_vs_seven
                    (opening (Demo.game true 20 100000 [])) tt)
      as (Hfold & _).
    apply Hfold. vm_compute. reflexivity.
Defined.

(** ** More on the scorer *)

Lemma sorted_three (c x y : Z) :
  exists p q r,
    sorted [c; x; y] = [p; q; r]
    /\ p <= q <= r
    /\ Permutation [c; x; y] [p; q; r].
Proof.
  pose proof (sorted_Permutation [c; x; y]) as HP.
  pose proof (sorted_ascending [c; x; y]) as HS.
  pose proof (Permutation_length HP) as HL.
  destruct (sorted [c; x; y]) as [|p [|q [|r [|? ?]]]]; try discriminate.
  exists p, q, r. split; [reflexivity|]. split; [|exact HP].
  inversion HS as [|? ? HS1 Hpq]; subst.
  inversion HS1 as [|? ? _ Hqr]; subst.
  inversion Hpq; subst. inversion Hqr; subst. lia.
Qed.

Lemma three_members (c x y p q r : Z) :
  Permutation [c; x; y] [p; q; r] ->
  (p = c \/ p = x \/ p = y) /\ (q = c \/ q = x \/ q = y)
  /\ (r = c \/ r = x \/ r = y)
  /\ (c = p \/ c = q \/ c = r) /\ (x = p \/ x = q \/ x = r)
  /\ (y = p \/ y = q \/ y = r).
Proof.
  intros HP.
  assert (Hin : forall a b c' z : Z,
             In z [a; b; c'] -> z = a \/ z = b \/ z = c').
  { intros a b c' z [H|[H|[H|[]]]]; auto. }
  assert (Hback : forall z, In z [p; q; r] -> In z [c; x; y])
    by (intros z; apply Permutation_in; now symmetry).
  assert (Hforth : forall z, In z [c; x; y] -> In z [p; q; r])
    by (intros z; now apply Permutation_in).
  repeat split; apply Hin;
    first [ apply Hback; simpl; auto | apply Hforth; simpl; auto ].
Qed.

Lemma no_self_successor (z : Z) : z <> z mod 10 + 1.
Proof.
  pose proof (Z.mod_pos_bound z 10 ltac:(lia)) as Hb. intros H.
  destruct (Z.eq_dec z 10) as [->|Hz]; [discriminate H|].
  rewrite Z.mod_small in H by lia. lia.
Qed.

(** With ranks in 1..10 the straight test of the third branch accepts
    plain runs only. *)
Lemma straight_test_is_run (p q r : Z) :
  1 <= p <= 10 -> 1 <= q <= 10 -> 1 <= r <= 10 ->
  p <= q <= r ->
  q = p mod 10 + 1 -> r = q mod 10 + 1 ->
  1 <= p <= 8 /\ q = p + 1 /\ r = p + 2.
Proof.
  intros Hp Hq Hr Hord Hpq Hqr.
  destruct (Z.eq_dec p 10) as [->|Hp10];
    [change (10 mod 10) with 0 in Hpq; lia|].
  rewrite Z.mod_small in Hpq by lia.
  destruct (Z.eq_dec q 10) as [->|Hq10];
    [change (10 mod 10) with 0 in Hqr; lia|].
  rewrite Z.mod_small in Hqr by lia. lia.
Qed.

(** The kinds of hand the scorer tells apart, for ranks in 1..10. *)
Lemma score_kinds (c x y : Z) :
  1 <= c <= 10 -> 1 <= x <= 10 -> 1 <= y <= 10 ->
  (Permutation [c; x; y] [1; 9; 10] /\ calculateScore c x y = 21)
  \/ (Permutation [c; x; y] [1; 2; 10] /\ calculateScore c x y = 22)
  \/ (exists n, 1 <= n <= 8 /\ Permutation [c; x; y] [n; n + 1; n + 2]
                /\ calculateScore c x y = 22 + n)
  \/ (c = x /\ x = y /\ calculateScore c x y = 20 + c)
  \/ ((c = x \/ c = y) /\ x <> y /\ calculateScore c x y = 10 + c)
  \/ (c <> x /\ c <> y /\ calculateScore c x y = c).
Proof.
  intros Hc Hx Hy. unfold calculateScore.
  destruct (sorted_three c x y) as (p & q & r & -> & Hord & HP).
  destruct (three_members _ _ _ _ _ _ HP) as (Hp & Hq & Hr & _).
  destruct (tuple_eqb [p; q; r] [1; 9; 10]) eqn:T1.
  { apply tuple_eqb_eq in T1. rewrite T1 in HP. auto. }
  destruct (tuple_eqb [p; q; r] [1; 2; 10]) eqn:T2.
  { apply tuple_eqb_eq in T2. rewrite T2 in HP. auto. }
  unfold item; cbn [nth].
  destruct ((q =? p mod 10 + 1) && (r =? q mod 10 + 1)) eqn:T3.
  { apply andb_true_iff in T3. destruct T3 as [Hpq Hqr].
    apply Z.eqb_eq in Hpq, Hqr.
    destruct (straight_test_is_run p q r) as (Hn & -> & ->);
      try assumption; try lia.
    right; right; left. exists p. repeat split; try lia. exact HP. }
  destruct (Z.eqb_spec c x) as [Hcx|Hcx], (Z.eqb_spec x y) as [Hxy|Hxy],
    (Z.eqb_spec c y) as [Hcy|Hcy]; cbn [andb orb]; try lia;
    auto 10.
Qed.

Lemma repeat_is_no_straight (c x y : Z) :
  c = x \/ c = y \/ x = y -> ~ straight_hand c x y.
Proof.
  intros Hsame [HP|[HP|(n & Hn & HP)]];
    destruct (three_members _ _ _ _ _ _ HP) as (H1 & H2 & H3 & _); lia.
Qed.

(** [X1] Every hand of ranks in 1..10 is of one of the kinds the
    scorer tells apart, and scores accordingly: a rearrangement of
    1, 9, 10 (21), a rearrangement of 1, 2, 10 (22), a plain run
    [n], [n+1], [n+2] with [n] in 1..8 ([22 + n]), three of a kind
    ([20 + c]), a pair of the private card with a community card
    ([10 + c]), or a hand that is none of these, straights included,
    when the score is the private card.  The score is above 20
    exactly for these straights and for three of a kind: no other
    wrap-around hand counts as a straight. *)
Theorem calculateScore_classification (c x y : Z) :
  1 <= c <= 10 -> 1 <= x <= 10 -> 1 <= y <= 10 ->
  ((Permutation [c; x; y] [1; 9; 10] /\ calculateScore c x y = 21)
   \/ (Permutation [c; x; y] [1; 2; 10] /\ calculateScore c x y = 22)
   \/ (exists n, 1 <= n <= 8 /\ Permutation [c; x; y] [n; n + 1; n + 2]
                 /\ calculateScore c x y = 22 + n)
   \/ (c = x /\ x = y /\ calculateScore c x y = 20 + c)
   \/ ((c = x \/ c = y) /\ x <> y /\ calculateScore c x y = 10 + c)
   \/ (c <> x /\ c <> y /\ ~ straight_hand c x y
       /\ calculateScore c x y = c))
  /\ (20 < calculateScore c x y
      <-> straight_hand c x y \/ (c = x /\ x = y)).
Proof.
  intros Hc Hx Hy.
  assert (Hkinds :
    (Permutation [c; x; y] [1; 9; 10] /\ calculateScore c x y = 21)
    \/ (Permutation [c; x; y] [1; 2; 10] /\ calculateScore c x y = 22)
    \/ (exists n, 1 <= n <= 8 /\ Permutation [c; x; y] [n; n + 1; n + 2]
                  /\ calculateScore c x y = 22 + n)
    \/ (c = x /\ x = y /\ calculateScore c x y = 20 + c)
    \/ ((c = x \/ c = y) /\ x <> y /\ calculateScore c x y = 10 + c)
    \/ (c <> x /\ c <> y /\ ~ straight_hand c x y
        /\ calculateScore c x y = c)).
  { unfold calculateScore.
    destruct (sorted_three c x y) as (p & q & r & E & Hord & HP).
    rewrite E.
    destruct (three_members _ _ _ _ _ _ HP) as (Hp & Hq & Hr & _).
    destruct (tuple_eqb [p; q; r] [1; 9; 10]) eqn:T1.
    { apply tuple_eqb_eq in T1. rewrite T1 in HP. auto. }
    destruct (tuple_eqb [p; q; r] [1; 2; 10]) eqn:T2.
    { apply tuple_eqb_eq in T2. rewrite T2 in HP. auto. }
    unfold item; cbn [nth].
    destruct ((q =? p mod 10 + 1) && (r =? q mod 10 + 1)) eqn:T3.
    { apply andb_true_iff in T3. destruct T3 as [Hpq Hqr].
      apply Z.eqb_eq in Hpq, Hqr.
      destruct (straight_test_is_run p q r) as (Hn & -> & ->);
        try assumption; try lia.
      right; right; left. exists p. repeat split; try lia. exact HP. }
    assert (Hplain : ~ straight_hand c x y).
    { intros [H|[H|(n & Hn & H)]]; apply sorted_perm_eq in H;
        rewrite E in H.
      - rewrite H in T1. discriminate T1.
      - rewrite H in T2. discriminate T2.
      - rewrite sorted_run in H. injection H as -> -> ->.
        rewrite (Z.mod_small n 10), (Z.mod_small (n + 1) 10) in T3 by lia.
        rewrite Z.eqb_refl in T3. cbn [andb] in T3.
        apply Z.eqb_neq in T3. lia. }
    destruct (Z.eqb_spec c x) as [Hcx|Hcx], (Z.eqb_spec x y) as [Hxy|Hxy],
      (Z.eqb_spec c y) as [Hcy|Hcy]; cbn [andb orb]; try lia;
      auto 10. }
  split; [exact Hkinds|].
  destruct Hkinds
    as [[HP H]|[[HP H]|[(n & Hn & HP & H)|[(H1 & H2 & H)|[(Hp & Hxy & H)
                                                      |(H1 & H2 & Hno & H)]]]]];
    rewrite H; unfold straight_hand.
  - split; [auto|lia].
  - split; [auto|lia].
  - split; [intros _; left; right; right; exists n; auto | lia].
  - split; [auto|lia].
  - split; [lia|]. intros [Hs|[H1 H2]]; [|lia].
    exfalso. apply (repeat_is_no_straight c x y); [tauto|exact Hs].
  - split; [lia|]. intros [Hs|[H3 H4]]; [|lia].
    exfalso. exact (Hno Hs).
Qed.

Lemma calculateScore_classification_witness :
  calculateScore 3 7 7 = 3 /\ ~ 20 < calculateScore 3 7 7.
Proof.
  destruct (calculateScore_classification 3 7 7
              ltac:(lia) ltac:(lia) ltac:(lia)) as [Hkinds Hhigh].
  split.
  - destruct Hkinds
      as [[_ H]|[[_ H]|[(n & Hn & _ & H)|[(H & _)|[([H|H] & _)
                                                  |(_ & _ & _ & H)]]]]];
      change (calculateScore 3 7 7) with 3 in *;
      try discriminate H; try lia; reflexivity.
  - intros Hgt. apply Hhigh in Hgt.
    destruct Hgt as [Hs|[H _]]; [|discriminate H].
    apply (repeat_is_no_straight 3 7 7); [auto|exact Hs].
Defined.

(** [X2] For ranks in 1..10 the score lies between 1 and 30; a score
    of at most 10 is the private card itself, and a score in 11..20 is
    10 plus the private card, which then matches a community card. *)
Theorem calculateScore_range (c x y : Z) :
  1 <= c <= 10 -> 1 <= x <= 10 -> 1 <= y <= 10 ->
  1 <= calculateScore c x y <= 30
  /\ (calculateScore c x y <= 10 -> calculateScore c x y = c)
  /\ (10 < calculateScore c x y <= 20 ->
      calculateScore c x y = 10 + c /\ (c = x \/ c = y)).
Proof.
  intros Hc Hx Hy.
  destruct (score_kinds c x y Hc Hx Hy)
    as [[_ H]|[[_ H]|[(n & Hn & _ & H)|[(_ & _ & H)|[(Hp & _ & H)
                                                  |(_ & _ & H)]]]]];
    rewrite H; repeat split; try lia; auto.
Qed.

Lemma calculateScore_range_witness :
  1 <= calculateScore 10 10 10 <= 30.
Proof.
  exact (proj1 (calculateScore_range 10 10 10
                  ltac:(lia) ltac:(lia) ltac:(lia))).
Defined.

(** A hand with a repeated card is scored by the last three branches. *)
Lemma score_with_repeat (c x y : Z) :
  c = x \/ c = y \/ x = y ->
  calculateScore c x y
  = if (c =? x) && (x =? y) then 20 + c
    else if (c =? x) || (c =? y) then 10 + c else c.
Proof.
  intros Hsame. unfold calculateScore.
  destruct (sorted_three c x y) as (p & q & r & -> & Hord & HP).
  destruct (three_members _ _ _ _ _ _ HP)
    as (Hp & Hq & Hr & Hc' & Hx' & Hy').
  assert (Hpqr : p = q \/ q = r) by lia.
  destruct (tuple_eqb [p; q; r] [1; 9; 10]) eqn:T1.
  { apply tuple_eqb_eq in T1. injection T1; lia. }
  destruct (tuple_eqb [p; q; r] [1; 2; 10]) eqn:T2.
  { apply tuple_eqb_eq in T2. injection T2; lia. }
  unfold item; cbn [nth].
  destruct ((q =? p mod 10 + 1) && (r =? q mod 10 + 1)) eqn:T3;
    [|reflexivity].
  apply andb_true_iff in T3. destruct T3 as [Hpq Hqr].
  apply Z.eqb_eq in Hpq, Hqr.
  destruct Hpqr as [<-|<-];
    [now apply no_self_successor in Hpq
    |now apply no_self_successor in Hqr].
Qed.

(** [X3] For all integers, the straight test never takes a hand with a
    repeated card: three of a kind always scores [20 + card], and a
    private card that matches a community card, the two community
    cards being different, always scores [10 + card]. *)
Theorem calculateScore_triple_and_pair (c x y : Z) :
  (c = x -> x = y -> calculateScore c x y = 20 + c)
  /\ (c = x \/ c = y -> x <> y -> calculateScore c x y = 10 + c).
Proof.
  split.
  - intros -> ->. rewrite score_with_repeat by auto.
    now rewrite Z.eqb_refl.
  - intros Hpair Hxy. rewrite score_with_repeat by tauto.
    destruct (Z.eqb_spec c x), (Z.eqb_spec x y), (Z.eqb_spec c y);
      cbn [andb orb]; try reflexivity; lia.
Qed.

Lemma calculateScore_triple_and_pair_witness :
  calculateScore 10 10 10 = 20 + 10 /\ calculateScore 9 10 9 = 10 + 9.
Proof.
  split.
  - exact (proj1 (calculateScore_triple_and_pair 10 10 10)
             eq_refl eq_refl).
  - apply (proj2 (calculateScore_triple_and_pair 9 10 9));
      [right; reflexivity | discriminate].
Defined.

(** [X4] For all integers, when the two community cards are equal no
    hand is a straight or a pair: the hand is three of a kind
    ([20 + card]) when the private card matches them, and scores the
    private card otherwise.  A three of a kind therefore never meets a
    straight in the same round. *)
Theorem calculateScore_paired_board (c x : Z) :
  calculateScore c x x = if c =? x then 20 + c else c.
Proof.
  rewrite score_with_repeat by auto.
  rewrite Z.eqb_refl, andb_true_r, orb_diag.
  now destruct (c =? x).
Qed.

(** [X5] [showdown] is fair between the seats: exchanging the two
    private cards mirrors the result, equal private cards always draw,
    and A wins exactly when A's score is the higher one. *)
Theorem showdown_mirror (a b x y : Z) :
  showdown b a x y = mirror (showdown a b x y)
  /\ showdown a a x y = DRAW
  /\ (showdown a b x y = A_WIN
      <-> calculateScore a x y > calculateScore b x y)
  /\ (showdown a b x y = DRAW
      <-> calculateScore a x y = calculateScore b x y).
Proof.
  unfold showdown.
  set (sa := calculateScore a x y). set (sb := calculateScore b x y).
  rewrite Z.eqb_refl.
  destruct (Z.eqb_spec sa sb), (Z.eqb_spec sb sa),
    (Z.gtb_spec sa sb), (Z.gtb_spec sb sa); simpl; try lia;
    repeat split; intros; try reflexivity; try discriminate; lia.
Qed.

(** ** More on a round *)

Section RoundExtras.

Context {W Rng : Type}.
Variable play_a : VisibleState -> W -> Z * W.
Variable play_b : VisibleState -> W -> Z * W.
Variable sample : Rng -> list Z -> Deal * Rng.

Local Abbreviation turnAB := (turn play_a play_b).
Local Abbreviation decisionAB := (decision play_a play_b).
Local Abbreviation bettingAB := (betting play_a play_b).
Local Abbreviation playRoundAB := (playRound play_a play_b sample).

(** [X6] When the side that is first to act proposes the blind (after
    the all-in cap), the round goes to the showdown at once: one
    decision is requested, the other side is never asked, both bets
    stay at the blind, and the store is the one left by that single
    call. *)
Theorem first_call_goes_to_showdown (g : IPGame Rng) (w : W) :
  let d := fst (sample (rng g) (deck g)) in
  let g0 := with_rng g (snd (sample (rng g) (deck g))) in
  let called :=
    {| a_bet := blind g;
       b_bet := blind g;
       current_bet := blind g;
       a_can_raise := false;
       b_can_raise := false;
       a_turn := negb (a_first g) |} in
  all_in g (fst ((if a_first g then play_a else play_b)
                   (visible_state g0 d (opening g)) w)) = blind g ->
  playRoundAB g w
  = Some (reveal g0 d called,
          snd ((if a_first g then play_a else play_b)
                 (visible_state g0 d (opening g)) w),
          mkRoundEnd Showdown called d).
Proof.
  intros d g0 called Hcall. unfold playRound.
  subst d g0. destruct (sample (rng g) (deck g)) as [d r].
  cbn [fst snd] in *.
  unfold round_fuel.
  set (n := Z.to_nat (Z.min (a_chips g) (b_chips g) - blind g)).
  cbn [betting opening a_can_raise b_can_raise orb].
  destruct (turn_cases play_a play_b (with_rng g r) d (opening g) w)
    as [[Hp Ht]|[Hp Ht]];
    unfold decision, current_player in Hp, Ht;
    cbn [opening a_turn current_bet] in Hp, Ht.
  - change (all_in (with_rng g r)) with (all_in g) in Hp. lia.
  - change (all_in (with_rng g r)) with (all_in g) in Ht.
    rewrite Hcall in Ht.
    change (opening g) with
      {| a_bet := blind g; b_bet := blind g; current_bet := blind g;
         a_can_raise := true; b_can_raise := true;
         a_turn := a_first g |} in Ht at 1.
    unfold opening at 1. rewrite Ht.
    assert (Hnext : raise_or_call (opening g) (blind g) = called).
    { unfold raise_or_call, opening, called.
      destruct (a_first g); cbn; rewrite Z.gtb_ltb, Z.ltb_irrefl,
        !Z.max_id; reflexivity. }
    rewrite Hnext.
    destruct n; reflexivity.
Qed.

(** [X7] At every showdown both sides have matched the current bet,
    which is at least the blind; the side with the higher score
    receives that amount from the other side and is first to act in
    the next round. *)
Theorem showdown_winner_takes_bet (g : IPGame Rng) (w : W) g' w' e :
  playRoundAB g w = Some (g', w', e) ->
  exit e = Showdown ->
  a_bet (at_state e) = current_bet (at_state e)
  /\ b_bet (at_state e) = current_bet (at_state e)
  /\ blind g <= current_bet (at_state e)
  /\ (score_a (cards e) > score_b (cards e) ->
      a_chips g' = a_chips g + current_bet (at_state e)
      /\ b_chips g' = b_chips g - current_bet (at_state e)
      /\ a_first g' = true)
  /\ (score_a (cards e) < score_b (cards e) ->
      a_chips g' = a_chips g - current_bet (at_state e)
      /\ b_chips g' = b_chips g + current_bet (at_state e)
      /\ a_first g' = false).
Proof.
  intros Hrun Hexit. apply playRound_spec in Hrun.
  destruct Hrun as (Hcards & Hinv & Hend).
  rewrite Hexit in Hend. destruct Hend as (Hclosed & ->).
  destruct Hinv as (_ & _ & _ & Hboth & Hlo & _).
  destruct (Hboth Hclosed) as [Ha Hb]. rewrite Hcards.
  set (d := fst (sample (rng g) (deck g))) in *.
  set (g0 := with_rng g (snd (sample (rng g) (deck g)))) in *.
  pose proof (reveal_chips g0 d (at_state e)) as H. rewrite Ha in H.
  split; [exact Ha|]. split; [exact Hb|]. split; [exact Hlo|].
  destruct (Z.gtb_spec (score_a d) (score_b d));
    (split; intros Hcmp; [try lia | try lia]); exact H.
Qed.

(** How much a round can move, and how low it can leave a stack. *)
Lemma round_transfer_bounds
    (g : IPGame Rng) (w : W) g' w' e :
  0 <= blind g ->
  blind g <= a_chips g ->
  blind g <= b_chips g ->
  playRoundAB g w = Some (g', w', e) ->
  blind g <= Z.abs (a_chips g' - a_chips g)
            <= Z.min (a_chips g) (b_chips g) + 10
  /\ b_chips g' - b_chips g = a_chips g - a_chips g'
  /\ -10 <= a_chips g'
  /\ -10 <= b_chips g'.
Proof.
  intros Hblind Ha Hb Hrun.
  pose proof (playRound_sum _ _ _ _ _ _ _ _ Hrun) as Hsum.
  apply playRound_spec in Hrun.
  destruct Hrun as (Hcards & Hinv & Hend).
  destruct Hinv as (_ & _ & _ & Hboth & Hlo & Hhi). simpl in Hlo, Hhi.
  set (d := fst (sample (rng g) (deck g))) in *.
  set (g0 := with_rng g (snd (sample (rng g) (deck g)))) in *.
  destruct (exit e).
  - destruct Hend as (_ & _ & ->).
    pose proof (fold_chips g0 d (at_state e)) as H. cbv zeta in H.
    assert (Hpen : forall s t, 0 <= penalty_rule s t <= 10).
    { intros s t. unfold penalty_rule.
      destruct ((s >? t) && (s >? 20)); [lia|].
      destruct ((s >? t) && (10 <? s) && (s <=? 20)); lia. }
    destruct (a_turn (at_state e)).
    + pose proof (Hpen (score_a d) (score_b d)).
      destruct H as (Ha' & Hb' & _). simpl in Ha', Hb'. lia.
    + pose proof (Hpen (score_b d) (score_a d)).
      destruct H as (Hb' & Ha' & _). simpl in Ha', Hb'. lia.
  - destruct Hend as (Hclosed & ->).
    destruct (Hboth Hclosed) as [Hab _].
    pose proof (reveal_chips g0 d (at_state e)) as H.
    destruct (score_a d >? score_b d); destruct H as (Ha' & Hb' & _);
      simpl in Ha', Hb'; lia.
Qed.

(** [X8] In a round entered with [0 <= blind <= min(a_chips, b_chips)]
    the amount that changes hands is at least the blind and at most
    the shorter stack plus the largest penalty, 10; what one side
    loses the other gains, and no stack is below -10 afterwards. *)
Theorem round_moves_at_most_short_stack_plus_ten
    (g : IPGame Rng) (w : W) g' w' e :
  0 <= blind g ->
  blind g <= a_chips g ->
  blind g <= b_chips g ->
  playRoundAB g w = Some (g', w', e) ->
  blind g <= Z.abs (a_chips g' - a_chips g)
            <= Z.min (a_chips g) (b_chips g) + 10
  /\ b_chips g' - b_chips g = a_chips g - a_chips g'
  /\ -10 <= a_chips g'
  /\ -10 <= b_chips g'.
Proof. apply round_transfer_bounds. Qed.

(** [X9] A round leaves the seed, the blind, the round limit and the
    deck of the game as they were (every round is dealt from the full
    deck), and advances the generator by exactly one draw of four
    cards, the cards the round was played with. *)
Theorem playRound_deals_once_from_full_deck
    (g : IPGame Rng) (w : W) g' w' e :
  playRoundAB g w = Some (g', w', e) ->
  seed g' = seed g
  /\ blind g' = blind g
  /\ max_length g' = max_length g
  /\ deck g' = deck g
  /\ cards e = fst (sample (rng g) (deck g))
  /\ rng g' = snd (sample (rng g) (deck g)).
Proof.
  intros Hrun. apply playRound_spec in Hrun.
  destruct Hrun as (Hcards & _ & Hexit).
  destruct (exit e).
  - destruct Hexit as (_ & _ & ->). unfold fold.
    destruct (a_turn (at_state e)); simpl; auto 10.
  - destruct Hexit as (_ & ->). unfold reveal.
    destruct (showdown _ _ _ _); simpl; auto 10.
Qed.

End RoundExtras.

(** ** More on a game *)

Section GameExtras.

Context {W Rng : Type}.
Variable play_a : VisibleState -> W -> Z * W.
Variable play_b : VisibleState -> W -> Z * W.
Variable sample : Rng -> list Z -> Deal * Rng.

Local Abbreviation playRoundAB := (playRound play_a play_b sample).
Local Abbreviation roundsAB := (rounds play_a play_b sample).
Local Abbreviation playGame_runAB := (playGame_run play_a play_b sample).
Local Abbreviation playGameAB := (playGame play_a play_b sample).

(** A property of the game object that every round played by the loop
    of [playGame] preserves holds when the loop is left. *)
Lemma rounds_invariant (P : IPGame Rng -> Prop) :
  (forall g w length g' w' e,
      keeps_playing g length = true -> P g ->
      playRoundAB g w = Some (g', w', e) -> P g') ->
  forall (fuel : nat) (g : IPGame Rng) (w : W) (length : Z) g' w' length',
    P g ->
    roundsAB fuel g w length = Some (g', w', length') ->
    P g'.
Proof.
  intros Hstep.
  induction fuel as [|fuel IH]; intros g w length g' w' length' HP Hrun;
    simpl in Hrun;
    destruct ((a_chips g >? 0) && (b_chips g >? 0) && (length <? max_length g))
      eqn:Hguard; try discriminate.
  - now injection Hrun as <- <- <-.
  - destruct (playRoundAB g w) as [[[g1 w1] e]|] eqn:Hround;
      [|discriminate].
    eapply IH; [|exact Hrun].
    eapply Hstep; [exact Hguard|exact HP|exact Hround].
  - now injection Hrun as <- <- <-.
Qed.

(** [X10] A game neither creates nor destroys chips: the two stacks
    add up to the same total when the loop of [playGame] is left.  So
    when the total is positive and the game ends before the round
    limit, the side that receives 1.0 holds every chip of the table
    (and possibly more, the other stack being at or below zero). *)
Theorem game_winner_holds_all (g : IPGame Rng) (w : W) g' w' length :
  playGame_runAB g w = Some (g', w', length) ->
  a_chips g' + b_chips g' = a_chips g + b_chips g
  /\ (0 < a_chips g + b_chips g ->
      length < max_length g ->
      (points g' length = (1, 0)%Q
       /\ b_chips g' <= 0
       /\ a_chips g + b_chips g <= a_chips g')
      \/ (points g' length = (0, 1)%Q
          /\ a_chips g' <= 0
          /\ a_chips g + b_chips g <= b_chips g')).
Proof.
  intros Hrun. apply rounds_spec in Hrun.
  destruct Hrun as (Hmax & _ & Hsum & _ & Hstop).
  split; [exact Hsum|]. intros Htotal Hlen.
  unfold keeps_playing, points in *. rewrite Hmax in *.
  destruct (Z.geb_spec length (max_length g)); [lia|].
  destruct (Z.ltb_spec length (max_length g)); [|lia].
  rewrite andb_true_r in Hstop.
  destruct (Z.gtb_spec (a_chips g') 0), (Z.gtb_spec (b_chips g') 0);
    try discriminate; [left|right|lia]; repeat split; lia.
Qed.

(** [X11] When the round limit is not positive or a stack is not
    positive at the start, [playGame] plays no round and changes
    nothing: the result is (0.5, 0.5) if the limit is not positive,
    else (1.0, 0.0) if A's stack is positive, else (0.0, 1.0), also
    when neither side has a chip. *)
Theorem playGame_without_rounds (g : IPGame Rng) (w : W) :
  max_length g <= 0 \/ a_chips g <= 0 \/ b_chips g <= 0 ->
  playGame_runAB g w = Some (g, w, 0)
  /\ playGameAB g w
     = Some (if max_length g <=? 0 then (1 # 2, 1 # 2)%Q
             else if a_chips g >? 0 then (1, 0)%Q
             else (0, 1)%Q, w).
Proof.
  intros Hedge.
  assert (Hrun : playGame_runAB g w = Some (g, w, 0)).
  { unfold playGame_run.
    assert (Hguard : (a_chips g >? 0) && (b_chips g >? 0)
                     && (0 <? max_length g) = false).
    { destruct (Z.gtb_spec (a_chips g) 0), (Z.gtb_spec (b_chips g) 0),
        (Z.ltb_spec 0 (max_length g)); simpl; auto; lia. }
    destruct (Z.to_nat (max_length g)); simpl; now rewrite Hguard. }
  split; [exact Hrun|].
  unfold playGame. rewrite Hrun. unfold points.
  destruct (Z.geb_spec 0 (max_length g)), (Z.leb_spec (max_length g) 0);
    try lia; reflexivity.
Qed.

(** [X12] With the blind at 1, as in every tournament game, a game
    entered with both stacks at or above -10 is left with both stacks
    at or above -10: a fold penalty can take a stack below zero, but
    never by more than 10. *)
Theorem game_stacks_at_least_minus_ten
    (g : IPGame Rng) (w : W) g' w' length :
  blind g = 1 ->
  -10 <= a_chips g ->
  -10 <= b_chips g ->
  playGame_runAB g w = Some (g', w', length) ->
  -10 <= a_chips g' /\ -10 <= b_chips g'.
Proof.
  intros Hblind Ha Hb Hrun.
  assert (Hinv : blind g' = 1 /\ -10 <= a_chips g' /\ -10 <= b_chips g').
  { refine (rounds_invariant
              (fun h => blind h = 1 /\ -10 <= a_chips h /\ -10 <= b_chips h)
              _ _ _ _ _ _ _ _ _ Hrun); [|auto].
    clear. intros g w length g' w' e Hguard (Hblind & _) Hround.
    destruct (keeps_playing_covers_blind g length Hblind Hguard)
      as (H0 & Ha & Hb).
    destruct (round_transfer_bounds
                play_a play_b sample g w g' w' e H0 Ha Hb Hround)
      as (_ & _ & Ha' & Hb').
    destruct (playRound_settings _ _ _ _ _ _ _ _ Hround) as (Hblind' & _).
    split; [congruence|]. split; assumption. }
  tauto.
Qed.

End GameExtras.

(** ** More on a tournament *)

Section TournamentExtras.

Context {W Rng : Type}.
Variable play_a : VisibleState -> W -> Z * W.
Variable play_b : VisibleState -> W -> Z * W.
Variable sample : Rng -> list Z -> Deal * Rng.
Variable Random : Z -> Rng.
Variable reset_a : W -> W.
Variable reset_b : W -> W.

Local Abbreviation playGameAB := (playGame play_a play_b sample).
Local Abbreviation play_gamesAB := (play_games play_a play_b sample).
Local Abbreviation playTournamentAB :=
  (playTournament play_a play_b sample Random).

Local Open Scope Q_scope.

Lemma points_total (g : IPGame Rng) (length : Z) :
  fst (points g length) + snd (points g length) == 1.
Proof.
  unfold points.
  destruct (length >=? max_length g)%Z; [reflexivity|].
  destruct (a_chips g >? 0)%Z; reflexivity.
Qed.

Lemma playGame_total_points (g : IPGame Rng) (w : W) pa pb w' :
  playGameAB g w = Some (pa, pb, w') -> pa + pb == 1.
Proof.
  unfold playGame.
  destruct (playGame_run play_a play_b sample g w)
    as [[[g' w1] length]|]; [|discriminate].
  intros [= Hp _]. pose proof (points_total g' length) as H.
  rewrite Hp in H. exact H.
Qed.

(** What a series of games does to the tournament object. *)
Lemma play_games_spec (games : list (IPGame Rng)) :
  forall (t : IPTournament) (w : W) t' w',
    play_gamesAB games t w = Some (t', w') ->
    num_games t' = num_games t
    /\ tournament_seed t' = tournament_seed t
    /\ a_points t' + b_points t'
       == a_points t + b_points t
          + inject_Z (Z.of_nat (List.length games)).
Proof.
  induction games as [|game rest IH]; intros t w t' w' Hrun;
    cbn [play_games] in Hrun.
  - injection Hrun as <- <-. repeat split; auto.
    simpl. unfold inject_Z. ring.
  - destruct (playGameAB game w) as [[[pa pb] w1]|] eqn:Hgame;
      [|discriminate].
    apply IH in Hrun.
    cbn [num_games tournament_seed a_points b_points] in Hrun.
    destruct Hrun as (Hn & Hs & Htotal).
    split; [exact Hn|]. split; [exact Hs|].
    rewrite Htotal, !Qred_correct.
    pose proof (playGame_total_points _ _ _ _ _ Hgame) as Hone.
    change (List.length (game :: rest)) with (S (List.length rest)).
    rewrite Nat2Z.inj_succ. unfold Z.succ. rewrite inject_Z_plus.
    setoid_replace (a_points t + pa + (b_points t + pb))
      with (a_points t + b_points t + (pa + pb)) by ring.
    rewrite Hone. change (inject_Z 1) with 1. ring.
Qed.

Lemma tournament_games_length (t : IPTournament) :
  Z.of_nat (List.length (tournament_games Random t))
  = Z.max 0 (num_games t).
Proof.
  unfold tournament_games, range.
  rewrite !length_map, length_seq. lia.
Qed.

Lemma playTournament_spec (t : IPTournament) (w : W) :
  exists t' w',
    playTournamentAB t w = Some (t', w')
    /\ num_games t' = num_games t
    /\ tournament_seed t' = tournament_seed t
    /\ a_points t' + b_points t'
       == a_points t + b_points t + inject_Z (Z.max 0 (num_games t)).
Proof.
  unfold playTournament.
  destruct (play_games_total play_a play_b sample
              (tournament_games Random t) t w) as [[t' w'] Hrun].
  exists t', w'. split; [exact Hrun|].
  apply play_games_spec in Hrun.
  now rewrite tournament_games_length in Hrun.
Qed.

(** [X13] [playTournament] returns, and every game adds exactly one
    point in total: afterwards the two point totals add up to what
    they were before plus the number of games played,
    [max(0, num_games)].  The totals are not cleared first. *)
Theorem playTournament_awards_one_point_per_game
    (t : IPTournament) (w : W) :
  exists t' w',
    playTournamentAB t w = Some (t', w')
    /\ a_points t' + b_points t'
       == a_points t + b_points t + inject_Z (Z.max 0 (num_games t)).
Proof.
  destruct (playTournament_spec t w) as (t' & w' & Hrun & _ & _ & Htotal).
  eauto.
Qed.

(** [X14] With [num_games] at or below zero [playTournament] plays no
    game: the point totals and the agents' store are left as they
    were. *)
Theorem playTournament_without_games (t : IPTournament) (w : W) :
  (num_games t <= 0)%Z ->
  playTournamentAB t w = Some (t, w).
Proof.
  intros Hn. unfold playTournament, tournament_games, range.
  replace (Z.to_nat (tournament_seed t + num_games t - tournament_seed t))
    with O by lia.
  reflexivity.
Qed.

Lemma tournament_games_nth (t : IPTournament) (j : nat) (g : IPGame Rng) :
  nth_error (tournament_games Random t) j = Some g ->
  g = new_game Random (tournament_seed t + Z.of_nat j)%Z.
Proof.
  unfold tournament_games. intros Hnth.
  rewrite nth_error_map in Hnth.
  destruct (nth_error (range _ _) j) as [i|] eqn:Hi; [|discriminate].
  injection Hnth as <-.
  apply range_nth in Hi. now destruct Hi as [-> _].
Qed.

(** [X15] Consecutive games of a tournament are opened by different
    sides: the side that acts first in the first round alternates from
    one game to the next. *)
Theorem tournament_first_mover_alternates
    (t : IPTournament) (j : nat) (g1 g2 : IPGame Rng) :
  nth_error (tournament_games Random t) j = Some g1 ->
  nth_error (tournament_games Random t) (S j) = Some g2 ->
  a_first g2 = negb (a_first g1).
Proof.
  intros H1 H2.
  apply tournament_games_nth in H1, H2. subst g1 g2.
  unfold new_game. cbn [a_first IPGame_init].
  rewrite Nat2Z.inj_succ. unfold Z.succ.
  rewrite <- !Zeven_mod.
  replace (tournament_seed t + (Z.of_nat j + 1))%Z
    with (Z.succ (tournament_seed t + Z.of_nat j)) by lia.
  rewrite Z.even_succ. symmetry. apply Z.negb_even.
Qed.

(** [X16] [playTournament] changes neither [num_games] nor the
    starting seed, so a second call plays games with the same seeds
    and the same first movers as the first call and adds its points to
    those already there. *)
Theorem playTournament_replays_the_same_games
    (t : IPTournament) (w : W) t' w' :
  playTournamentAB t w = Some (t', w') ->
  tournament_games Random t' = tournament_games Random t
  /\ exists t'' w'',
      playTournamentAB t' w' = Some (t'', w'')
      /\ a_points t'' + b_points t''
         == a_points t + b_points t
            + inject_Z (2 * Z.max 0 (num_games t)).
Proof.
  intros Hrun.
  destruct (playTournament_spec t w)
    as (t1 & w1 & Hrun1 & Hn & Hs & Htotal).
  rewrite Hrun in Hrun1. injection Hrun1 as <- <-.
  split; [unfold tournament_games; now rewrite Hn, Hs|].
  destruct (playTournament_spec t' w')
    as (t2 & w2 & Hrun2 & _ & _ & Htotal2).
  exists t2, w2. split; [exact Hrun2|].
  rewrite Htotal2, Htotal, Hn.
  replace (2 * Z.max 0 (num_games t))%Z
    with (Z.max 0 (num_games t) + Z.max 0 (num_games t))%Z by lia.
  rewrite inject_Z_plus. ring.
Qed.

(** [X17] [reset] calls the reset of agent A, then that of agent B,
    clears both point totals and keeps [num_games] and the seed: a
    tournament played after it plays the same games and ends with the
    two totals adding up to the number of games. *)
Theorem reset_then_playTournament (t : IPTournament) (w : W) :
  snd (reset reset_a reset_b t w) = reset_b (reset_a w)
  /\ tournament_games Random (fst (reset reset_a reset_b t w))
     = tournament_games Random t
  /\ exists t' w',
      playTournamentAB (fst (reset reset_a reset_b t w))
                       (snd (reset reset_a reset_b t w))
      = Some (t', w')
      /\ a_points t' + b_points t' == inject_Z (Z.max 0 (num_games t)).
Proof.
  split; [reflexivity|]. split; [reflexivity|].
  destruct (playTournament_spec (fst (reset reset_a reset_b t w))
              (snd (reset reset_a reset_b t w)))
    as (t' & w' & Hrun & _ & _ & Htotal).
  exists t', w'. split; [exact Hrun|].
  rewrite Htotal.
  lazy beta iota zeta delta [reset fst a_points b_points num_games]. ring.
Qed.

Local Close Scope Q_scope.

Lemma range_cons (lo hi : Z) :
  lo < hi -> range lo hi = lo :: range (lo + 1) hi.
Proof.
  intros Hlt. unfold range.
  replace (Z.to_nat (hi - lo)) with (S (Z.to_nat (hi - (lo + 1)))) by lia.
  cbn [seq map]. f_equal; [simpl; lia|].
  rewrite <- seq_shift, map_map.
  apply map_ext. intros k. lia.
Qed.

(** Games opened by A among [n] games from seed [s] on. *)
Lemma first_movers_count (n : nat) :
  forall s : Z,
    2 * Z.of_nat (List.length
                    (filter a_first
                       (map (new_game Random) (range s (s + Z.of_nat n)))))
    = Z.of_nat n + (if Z.even s then 1 else 0)
      - (if Z.even (s + Z.of_nat n) then 1 else 0).
Proof.
  induction n as [|n IH]; intros s.
  - unfold range. replace (Z.to_nat (s + Z.of_nat 0 - s)) with O by lia.
    rewrite Z.add_0_r. simpl. destruct (Z.even s); reflexivity.
  - rewrite range_cons by lia.
    replace (s + Z.of_nat (S n)) with (s + 1 + Z.of_nat n) by lia.
    cbn [map filter]. specialize (IH (s + 1)).
    replace (Z.even (s + 1)) with (negb (Z.even s)) in IH
      by (rewrite Z.add_1_r, Z.even_succ, Z.negb_even; reflexivity).
    unfold new_game at 1. cbn [a_first IPGame_init].
    rewrite <- Zeven_mod.
    destruct (Z.even s); cbn [negb List.length] in *; lia.
Qed.

(** [X18] Over an even number of games each side opens exactly half of
    them, whatever the starting seed. *)
Theorem tournament_first_moves_are_shared (t : IPTournament) :
  0 <= num_games t ->
  Z.even (num_games t) = true ->
  2 * Z.of_nat (List.length
                  (filter a_first (tournament_games Random t)))
  = num_games t
  /\ 2 * Z.of_nat (List.length
                     (filter (fun g => negb (a_first g))
                        (tournament_games Random t)))
     = num_games t.
Proof.
  intros Hn Heven.
  assert (Hfirst : 2 * Z.of_nat (List.length
                     (filter a_first (tournament_games Random t)))
                   = num_games t).
  { unfold tournament_games.
    pose proof (first_movers_count (Z.to_nat (num_games t))
                  (tournament_seed t)) as H.
    rewrite Z2Nat.id in H by exact Hn. rewrite H.
    replace (Z.even (tournament_seed t + num_games t))
      with (Z.even (tournament_seed t)).
    - destruct (Z.even (tournament_seed t)); lia.
    - rewrite Z.even_add, Heven. now destruct (Z.even (tournament_seed t)). }
  split; [exact Hfirst|].
  pose proof (filter_length a_first (tournament_games Random t)) as Hsplit.
  pose proof (tournament_games_length t) as Hlen. lia.
Qed.

End TournamentExtras.

(** ** Answering an all-in bet *)

Section AllInExtras.

Context {W Rng : Type}.
Variable play_a : VisibleState -> W -> Z * W.
Variable play_b : VisibleState -> W -> Z * W.

Local Abbreviation turnAB := (turn play_a play_b).
Local Abbreviation bettingAB := (betting play_a play_b).

(** [X19] Once the current bet has reached the shorter stack, the side
    to move can only call or fold: whatever it proposes, that pass is
    the last one of the betting loop. *)
Theorem all_in_bet_is_called_or_folded
    (g : IPGame Rng) (d : Deal) (rs : RoundState) (w : W) :
  Z.min (a_chips g) (b_chips g) <= current_bet rs ->
  (exists r, bettingAB 1 g d rs w = Some r)
  /\ (forall fuel, bettingAB (S fuel) g d rs w = bettingAB 1 g d rs w)
  /\ ((exists g' w', turnAB g d rs w = Folded g' w')
      \/ (exists rs' w',
             turnAB g d rs w = Played rs' w'
             /\ a_can_raise rs' = false
             /\ b_can_raise rs' = false)).
Proof.
  intros Hfull.
  assert (Hturn : (exists g' w', turnAB g d rs w = Folded g' w')
                  \/ (exists rs' w',
                         turnAB g d rs w = Played rs' w'
                         /\ a_can_raise rs' = false
                         /\ b_can_raise rs' = false)).
  { destruct (turn_cases play_a play_b g d rs w) as [[_ Ht]|[Hp Ht]];
      [left; eauto|right].
    set (p := all_in g (fst (decision play_a play_b g d rs w))) in *.
    pose proof (all_in_le g (fst (decision play_a play_b g d rs w)))
      as Hcap. fold p in Hcap.
    assert (Hp' : p = current_bet rs) by lia.
    eexists; eexists. split; [exact Ht|].
    pose proof (raise_or_call_flags rs p) as Hflags.
    destruct (Z.gtb_spec p (current_bet rs)); [lia|].
    apply orb_false_iff in Hflags. exact Hflags. }
  split; [|split; [|exact Hturn]].
  - cbn [betting]. destruct (a_can_raise rs || b_can_raise rs); [|eauto].
    destruct Hturn as [(g' & w' & ->)|(rs' & w' & -> & Ha & Hb)];
      [eauto|].
    rewrite Ha, Hb. cbn [orb]. eauto.
  - intros fuel. cbn [betting].
    destruct (a_can_raise rs || b_can_raise rs); [|reflexivity].
    destruct Hturn as [(g' & w' & ->)|(rs' & w' & -> & Ha & Hb)];
      [reflexivity|].
    destruct fuel; cbn [betting]; rewrite Ha, Hb; reflexivity.
Qed.

End AllInExtras.

(** ** The further properties on concrete rounds, games and tournaments *)

Lemma first_call_goes_to_showdown_witness :
  playRound (Demo.always 1) (Demo.always 1) Demo.sample
            (Demo.game false 20 100000 [Demo.fives]) tt
  = Some (settle (Demo.game false 20 100000 []) 19 21 false, tt,
          mkRoundEnd Showdown
            {| a_bet := 1; b_bet := 1; current_bet := 1;
               a_can_raise := false; b_can_raise := false;
               a_turn := true |}
            Demo.fives).
Proof.
  exact (first_call_goes_to_showdown
           (Demo.always 1) (Demo.always 1) Demo.sample
           (Demo.game false 20 100000 [Demo.fives]) tt eq_refl).
Defined.

Lemma showdown_winner_takes_bet_witness :
  exists g' e,
    playRound (Demo.always 20) (Demo.always 20) Demo.sample
              (Demo.game true 20 1 [Demo.run_vs_seven]) tt
    = Some (g', tt, e)
    /\ exit e = Showdown
    /\ a_chips g' = 20 + 20
    /\ b_chips g' = 20 - 20
    /\ a_first g' = true.
Proof.
  eexists; eexists.
  split; [vm_compute; reflexivity|].
  split; [reflexivity|].
  pose proof (showdown_winner_takes_bet
                (Demo.always 20) (Demo.always 20) Demo.sample
                (Demo.game true 20 1 [Demo.run_vs_seven]) tt _ _ _
                eq_refl eq_refl) as (_ & _ & _ & Hwin & _).
  exact (Hwin eq_refl).
Defined.

Lemma round_moves_at_most_short_stack_plus_ten_witness :
  exists g' e,
    playRound (Demo.always 0) (Demo.always 2) Demo.sample
              (Demo.game true 20 100000 [Demo.run_vs_seven]) tt
    = Some (g', tt, e)
    /\ 1 <= Z.abs (a_chips g' - 20) <= Z.min 20 20 + 10
    /\ -10 <= a_chips g'
    /\ -10 <= b_chips g'.
Proof.
  eexists; eexists.
  split; [vm_compute; reflexivity|].
  pose proof (round_moves_at_most_short_stack_plus_ten
                (Demo.always 0) (Demo.always 2) Demo.sample
                (Demo.game true 20 100000 [Demo.run_vs_seven]) tt _ _ _
                ltac:(simpl; lia) ltac:(simpl; lia) ltac:(simpl; lia)
                eq_refl) as (Hmove & _ & Ha & Hb).
  split; [exact Hmove|]. split; [exact Ha | exact Hb].
Defined.

Lemma playRound_deals_once_from_full_deck_witness :
  exists g' e,
    playRound (Demo.always 0) (Demo.always 2) Demo.sample
              (Demo.game true 20 100000
                         [Demo.run_vs_seven; Demo.fives]) tt
    = Some (g', tt, e)
    /\ deck g' = full_deck
    /\ cards e = Demo.run_vs_seven
    /\ rng g' = [Demo.fives].
Proof.
  eexists; eexists.
  split; [vm_compute; reflexivity|].
  pose proof (playRound_deals_once_from_full_deck
                (Demo.always 0) (Demo.always 2) Demo.sample
                (Demo.game true 20 100000
                           [Demo.run_vs_seven; Demo.fives]) tt _ _ _
                eq_refl) as (_ & _ & _ & Hdeck & Hcards & Hrng).
  split; [exact Hdeck|]. split; [exact Hcards | exact Hrng].
Defined.

Lemma game_winner_holds_all_witness :
  exists g' length,
    playGame_run (Demo.always 0) (Demo.always 2) Demo.sample
                 (Demo.game true 20 100000
                            [Demo.run_vs_seven; Demo.run_vs_seven]) tt
    = Some (g', tt, length)
    /\ a_chips g' + b_chips g' = 20 + 20
    /\ points g' length = (0, 1)%Q
    /\ 20 + 20 <= b_chips g'.
Proof.
  assert (E : playGame_run (Demo.always 0) (Demo.always 2) Demo.sample
                (Demo.game true 20 100000
                           [Demo.run_vs_seven; Demo.run_vs_seven]) tt
              = Some (settle (Demo.game true 20 100000 []) (-3) 43 false,
                      tt, 2))
    by (vm_compute; reflexivity).
  eexists; eexists. split; [exact E|].
  destruct (game_winner_holds_all _ _ _ _ _ _ _ _ E) as (Hsum & Hwin).
  split; [exact Hsum|].
  destruct Hwin as [(_ & Hb & _)|(Hp & _ & Hb)];
    [simpl; lia | simpl; lia | simpl in Hb; lia | auto].
Defined.

Lemma playGame_without_rounds_witness :
  playGame (Demo.always 1) (Demo.always 1) Demo.sample
           (Demo.game true 20 0 [Demo.fives]) tt
  = Some ((1 # 2, 1 # 2)%Q, tt)
  /\ playGame (Demo.always 1) (Demo.always 1) Demo.sample
              (Demo.game true 0 100000 [Demo.fives]) tt
     = Some ((0, 1)%Q, tt).
Proof.
  split.
  - apply (playGame_without_rounds
             (Demo.always 1) (Demo.always 1) Demo.sample
             (Demo.game true 20 0 [Demo.fives]) tt).
    left. simpl. lia.
  - apply (playGame_without_rounds
             (Demo.always 1) (Demo.always 1) Demo.sample
             (Demo.game true 0 100000 [Demo.fives]) tt).
    right; left. simpl. lia.
Defined.

Lemma game_stacks_at_least_minus_ten_witness :
  exists g' length,
    playGame_run (Demo.always 0) (Demo.always 2) Demo.sample
                 (Demo.game true 20 100000
                            [Demo.run_vs_seven; Demo.run_vs_seven]) tt
    = Some (g', tt, length)
    /\ a_chips g' < 0
    /\ -10 <= a_chips g'
    /\ -10 <= b_chips g'.
Proof.
  assert (E : playGame_run (Demo.always 0) (Demo.always 2) Demo.sample
                (Demo.game true 20 100000
                           [Demo.run_vs_seven; Demo.run_vs_seven]) tt
              = Some (settle (Demo.game true 20 100000 []) (-3) 43 false,
                      tt, 2))
    by (vm_compute; reflexivity).
  eexists; eexists. split; [exact E|].
  split; [simpl; lia|].
  refine (game_stacks_at_least_minus_ten _ _ _ _ _ _ _ _ _ _ _ E);
    [reflexivity | simpl; lia | simpl; lia].
Defined.

Lemma playTournament_without_games_witness :
  playTournament (Demo.always 1) (Demo.always 1) Demo.sample Demo.Random
                 (IPTournament_init 0 1) tt
  = Some (IPTournament_init 0 1, tt).
Proof.
  apply playTournament_without_games. simpl. lia.
Defined.

Lemma tournament_first_mover_alternates_witness :
  exists g1 g2,
    nth_error (tournament_games Demo.Random Demo.default_tournament) 0
    = Some g1
    /\ nth_error (tournament_games Demo.Random Demo.default_tournament) 1
       = Some g2
    /\ a_first g1 = false
    /\ a_first g2 = negb (a_first g1).
Proof.
  eexists; eexists.
  split; [reflexivity|]. split; [reflexivity|]. split; [reflexivity|].
  exact (tournament_first_mover_alternates
           Demo.Random Demo.default_tournament 0 _ _ eq_refl eq_refl).
Defined.

Lemma playTournament_replays_the_same_games_witness :
  exists t' w',
    playTournament (Demo.always 0) (Demo.always 2) Demo.sample Demo.Random
                   (IPTournament_init 2 1) tt
    = Some (t', w')
    /\ tournament_games Demo.Random t'
       = tournament_games Demo.Random (IPTournament_init 2 1).
Proof.
  destruct (playTournament (Demo.always 0) (Demo.always 2) Demo.sample
              Demo.Random (IPTournament_init 2 1) tt)
    as [[t' w']|] eqn:E.
  - exists t', w'. split; [reflexivity|].
    exact (proj1 (playTournament_replays_the_same_games
                    _ _ _ _ _ _ _ _ E)).
  - vm_compute in E. discriminate E.
Defined.

Lemma tournament_first_moves_are_shared_witness :
  2 * Z.of_nat (List.length
                  (filter a_first
                     (tournament_games Demo.Random
                                       Demo.default_tournament)))
  = 100.
Proof.
  apply (tournament_first_moves_are_shared
           Demo.Random Demo.default_tournament);
    [simpl; lia | reflexivity].
Defined.

Lemma all_in_bet_is_called_or_folded_witness :
  exists r,
    betting (Demo.always 20) (Demo.always 20) 1
            (Demo.game true 20 1 []) Demo.run_vs_seven
            {| a_bet := 20; b_bet := 1; current_bet := 20;
               a_can_raise := false; b_can_raise := true;
               a_turn := false |} tt
    = Some r.
Proof.
  apply (all_in_bet_is_called_or_folded
           (Demo.always 20) (Demo.always 20)
           (Demo.game true 20 1 []) Demo.run_vs_seven).
  simpl. lia.
Defined.

(** ** The snapshots handed out in a round *)

Section SnapshotClaims.

Context {W Rng : Type}.
Variable play_a : VisibleState -> W -> Z * W.
Variable play_b : VisibleState -> W -> Z * W.
Variable sample : Rng -> list Z -> Deal * Rng.

Local Abbreviation Log := (list (bool * VisibleState)).
Local Abbreviation snapshot g d :=
  (fun rs : RoundState => (a_turn rs, visible_state g d rs)).

(** A pass with logging agents is the pass with the agents themselves,
    plus one entry in the log: the mover's seat and its snapshot. *)
Lemma turn_logged (g : IPGame Rng) (d : Deal) (rs : RoundState)
    (w : W) (log : Log) :
  turn (logged true play_a) (logged false play_b) g d rs (w, log)
  = match turn play_a play_b g d rs w with
    | Folded g' w' => Folded g' (w', log ++ [snapshot g d rs])
    | Played rs' w' => Played rs' (w', log ++ [snapshot g d rs])
    end.
Proof.
  unfold turn, decision, current_player, logged.
  destruct (a_turn rs); cbn [fst snd];
    [destruct (play_a (visible_state g d rs) w) as [bet w1]
    |destruct (play_b (visible_state g d rs) w) as [bet w1]];
    destruct (all_in g bet <? current_bet rs); reflexivity.
Qed.

(** The betting loop with logging agents: same result, and the log
    grows by the snapshots of the loop states at which a decision is
    requested. *)
Lemma betting_logged (g : IPGame Rng) (d : Deal) (fuel : nat) :
  forall (rs : RoundState) (w : W) (log0 : Log) g' w' log e,
    betting (logged true play_a) (logged false play_b) fuel g d rs (w, log0)
    = Some (g', (w', log), e) ->
    betting play_a play_b fuel g d rs w = Some (g', w', e)
    /\ log = log0 ++ map (snapshot g d) (requests play_a play_b fuel g d rs w).
Proof.
  induction fuel as [|fuel IH]; intros rs w log0 g' w' log e Hrun;
    cbn [betting requests] in *;
    destruct (a_can_raise rs || b_can_raise rs); try discriminate.
  - injection Hrun as <- <- <- <-. now rewrite app_nil_r.
  - rewrite turn_logged in Hrun.
    destruct (turn play_a play_b g d rs w) as [g1 w1|rs1 w1].
    + injection Hrun as <- <- <- <-. split; reflexivity.
    + apply IH in Hrun. destruct Hrun as [Hrun ->].
      split; [exact Hrun|]. cbn [map]. now rewrite <- app_assoc.
  - injection Hrun as <- <- <- <-. now rewrite app_nil_r.
Qed.

(** Every loop state at which a decision is requested has a can-raise
    flag up and satisfies the loop invariant. *)
Lemma requests_matched (g : IPGame Rng) (d : Deal) (fuel : nat) :
  forall (rs : RoundState) (w : W),
    bets_matched g rs ->
    Forall (fun r => a_can_raise r || b_can_raise r = true
                     /\ bets_matched g r)
           (requests play_a play_b fuel g d rs w).
Proof.
  induction fuel as [|fuel IH]; intros rs w Hinv; cbn [requests];
    destruct (a_can_raise rs || b_can_raise rs) eqn:Hflags;
    try constructor; auto.
  destruct (turn_cases play_a play_b g d rs w) as [[_ ->]|[Hp ->]];
    [constructor|].
  apply IH.
  now apply bets_matched_raise_or_call; [| |apply all_in_le].
Qed.

Lemma requests_head (g : IPGame Rng) (d : Deal) (fuel : nat)
    (rs : RoundState) (w : W) :
  a_can_raise rs || b_can_raise rs = true ->
  hd_error (requests play_a play_b (S fuel) g d rs w) = Some rs.
Proof. intros Hflags. cbn [requests]. now rewrite Hflags. Qed.

(** [C8], as the code has it.  Let a round be played by agents that
    log every snapshot their [play] is called with.  The round is the
    one the agents play without the log; the log holds, in order, one
    snapshot for each loop state at which a decision is requested,
    starting with the opening state; each snapshot holds the two
    community cards, the other side's card, the mover's stack and bet,
    the other side's stack and bet and the negation of the other
    side's can-raise flag, as they are at that loop state, and is the
    same whatever the mover's own card is.  Two rounds that differ
    only in the own card of the side that opens hand the same first
    snapshot to that side. *)
Theorem snapshots_of_a_round :
  (forall (g : IPGame Rng) (w : W) g' w' (log : Log) e,
      playRound (logged true play_a) (logged false play_b) sample g (w, [])
      = Some (g', (w', log), e) ->
      let d := fst (sample (rng g) (deck g)) in
      let g0 := with_rng g (snd (sample (rng g) (deck g))) in
      let asked := requests play_a play_b (round_fuel g) g0 d (opening g) w in
      playRound play_a play_b sample g w = Some (g', w', e)
      /\ log = map (snapshot g0 d) asked
      /\ hd_error asked = Some (opening g)
      /\ Forall (fun rs =>
                   a_can_raise rs || b_can_raise rs = true
                   /\ bets_matched g0 rs
                   /\ snapshot_contents g d rs (visible_state g0 d rs)
                   /\ forall c : Z,
                        visible_state g0 (with_own_card rs d c) rs
                        = visible_state g0 d rs)
                asked)
  /\ (forall (g1 g2 : IPGame Rng) (w1 w2 : W) (c : Z)
             g1' w1' (log1 : Log) e1 g2' w2' (log2 : Log) e2,
        a_chips g2 = a_chips g1 ->
        b_chips g2 = b_chips g1 ->
        blind g2 = blind g1 ->
        a_first g2 = a_first g1 ->
        fst (sample (rng g2) (deck g2))
        = with_own_card (opening g1) (fst (sample (rng g1) (deck g1))) c ->
        playRound (logged true play_a) (logged false play_b) sample
                  g1 (w1, [])
        = Some (g1', (w1', log1), e1) ->
        playRound (logged true play_a) (logged false play_b) sample
                  g2 (w2, [])
        = Some (g2', (w2', log2), e2) ->
        hd_error log1 = hd_error log2
        /\ exists vs, hd_error log1 = Some (a_first g1, vs)).
Proof.
  assert (Hround :
    forall (g : IPGame Rng) (w : W) g' w' (log : Log) e,
      playRound (logged true play_a) (logged false play_b) sample g (w, [])
      = Some (g', (w', log), e) ->
      playRound play_a play_b sample g w = Some (g', w', e)
      /\ log = map (snapshot (with_rng g (snd (sample (rng g) (deck g))))
                             (fst (sample (rng g) (deck g))))
                   (requests play_a play_b (round_fuel g)
                      (with_rng g (snd (sample (rng g) (deck g))))
                      (fst (sample (rng g) (deck g))) (opening g) w)).
  { intros g w g' w' log e Hrun. unfold playRound in *.
    destruct (sample (rng g) (deck g)) as [d r]. cbn [fst snd].
    apply betting_logged in Hrun. exact Hrun. }
  split.
  - intros g w g' w' log e Hrun d g0 asked.
    destruct (Hround _ _ _ _ _ _ Hrun) as [Hplain Hlog].
    split; [exact Hplain|]. split; [exact Hlog|].
    split; [apply requests_head; reflexivity|].
    pose proof (requests_matched g0 d (round_fuel g) (opening g) w
                  (bets_matched_opening g _)) as Hall.
    apply Forall_impl with (2 := Hall).
    intros rs [Hflags Hinv].
    split; [exact Hflags|]. split; [exact Hinv|].
    unfold snapshot_contents, visible_state, with_own_card.
    destruct (a_turn rs); cbn; repeat split; reflexivity.
  - intros g1 g2 w1 w2 c g1' w1' log1 e1 g2' w2' log2 e2
           Ha Hb Hblind Hfirst Hdeal Hrun1 Hrun2.
    destruct (Hround _ _ _ _ _ _ Hrun1) as [_ ->].
    destruct (Hround _ _ _ _ _ _ Hrun2) as [_ ->].
    unfold round_fuel. cbn [requests opening a_can_raise b_can_raise orb
                            map hd_error].
    split; [|eauto]. f_equal. rewrite Hdeal.
    unfold visible_state, with_own_card, opening.
    cbn [a_turn a_bet b_bet a_can_raise b_can_raise a_chips b_chips
         with_rng]. rewrite Ha, Hb, Hblind, Hfirst.
    destruct (a_first g1); reflexivity.
Qed.

End SnapshotClaims.

Lemma snapshots_of_a_round_witness :
  exists g' e g2' log2 e2,
    playRound (logged true (Demo.always 1))
              (logged false bets_the_card_it_sees) Demo.sample
              (Demo.game false 20 100000 [mkDeal 3 7 1 2]) (tt, [])
    = Some (g', (tt, [(false, mkVisibleState 1 2 3 20 20 1 1 false);
                      (true, mkVisibleState 1 2 7 20 20 1 3 true)]), e)
    /\ playRound (Demo.always 1) bets_the_card_it_sees Demo.sample
                 (Demo.game false 20 100000 [mkDeal 3 7 1 2]) tt
       = Some (g', tt, e)
    /\ playRound (logged true (Demo.always 1))
                 (logged false bets_the_card_it_sees) Demo.sample
                 (Demo.game false 20 100000 [mkDeal 3 9 1 2]) (tt, [])
       = Some (g2', (tt, log2), e2)
    /\ hd_error log2
       = Some (false, mkVisibleState 1 2 3 20 20 1 1 false).
Proof.
  destruct (@snapshots_of_a_round unit (list Deal)
              (Demo.always 1) bets_the_card_it_sees Demo.sample)
    as [Hlog Hfirst].
  eexists; eexists; eexists; eexists; eexists.
  split; [vm_compute; reflexivity|].
  split.
  { exact (proj1 (Hlog (Demo.game false 20 100000 [mkDeal 3 7 1 2])
                       tt _ _ _ _ eq_refl)). }
  split; [vm_compute; reflexivity|].
  symmetry.
  exact (proj1 (Hfirst (Demo.game false 20 100000 [mkDeal 3 7 1 2])
                       (Demo.game false 20 100000 [mkDeal 3 9 1 2])
                       tt tt 9 _ _ _ _ _ _ _ _
                       eq_refl eq_refl eq_refl eq_refl eq_refl
                       eq_refl eq_refl)).
Defined.

(** [C8] fails as stated over a whole round: B opens and bets the card
    it sees, so the snapshot handed to A shows a bet of 3 when A holds
    a 3 and a bet of 5 when A holds a 5, all else being equal. *)
Lemma own_card_shows_in_snapshot_counterexample :
  ~ (forall g1' s1 log1 e1 g2' s2 log2 e2,
        playRound (logged true (Demo.always 1))
                  (logged false bets_the_card_it_sees) Demo.sample
                  (Demo.game false 20 100000 [mkDeal 3 7 1 2]) (tt, [])
        = Some (g1', (s1, log1), e1) ->
        playRound (logged true (Demo.always 1))
                  (logged false bets_the_card_it_sees) Demo.sample
                  (Demo.game false 20 100000 [mkDeal 5 7 1 2]) (tt, [])
        = Some (g2', (s2, log2), e2) ->
        filter fst log1 = filter fst log2).
Proof.
  intros H.
  specialize (H _ _ _ _ _ _ _ _ eq_refl eq_refl).
  vm_compute in H. discriminate H.
Qed.
